(** * jack-midi-cmd: the event queue, the realtime callback and the command parser

    A shallow embedding of [jack_midi_cmd.c].  The globals of the program
    ([client_state], [event_queue], [queued_events_start],
    [queued_events_end]), the output port's buffer and the text printed on
    standard output are gathered in one record that every function threads
    explicitly.  Behaviour that C leaves undefined (an array access out of
    bounds, a scanned number that does not fit its object) is an explicit
    result, and so is a loop that has not finished within its fuel. *)

From Stdlib Require Import ZArith Lia List String Ascii Bool.
From stdpp Require Import base list.
Import ListNotations.

Local Open Scope Z_scope.

(** ** Results of fallible code *)

Inductive result (A : Type) : Type :=
| Ok (a : A)        (* the code ran to completion *)
| Undefined         (* the C standard leaves the behaviour undefined *)
| OutOfFuel.        (* a loop did not finish within the fuel given *)

Arguments Ok {A} a.
Arguments Undefined {A}.
Arguments OutOfFuel {A}.

#[global] Instance result_ret : MRet result := fun A a => Ok a.

#[global] Instance result_bind : MBind result := fun A B k r =>
  match r with
  | Ok a => k a
  | Undefined => Undefined
  | OutOfFuel => OutOfFuel
  end.

(** ** Data *)

Definition JACK_MIDI_QUEUE_SIZE : Z := 256.

(** [static volatile enum { Run, Exit } client_state]. *)
Inductive client_state_t : Type := Run | Exit.

(** A byte of storage: [None] is a byte that was never assigned (an
    automatic variable's indeterminate content). *)
Definition cell : Type := option Z.

(** [struct my_midi_event]: [buffer] has 16 cells. *)
Record my_midi_event_t : Type := mk_event {
  time : cell;
  size : cell;
  buffer : list cell
}.

Definition set_time (t : cell) (e : my_midi_event_t) : my_midi_event_t :=
  mk_event t (size e) (buffer e).

Definition set_size (n : cell) (e : my_midi_event_t) : my_midi_event_t :=
  mk_event (time e) n (buffer e).

(** [e.buffer[i] = b] for a constant index [i] below 16. *)
Definition set_buffer (i : nat) (b : cell) (e : my_midi_event_t) : my_midi_event_t :=
  mk_event (time e) (size e) (<[i := b]> (buffer e)).

(** An automatic [my_midi_event_t] before anything is assigned to it. *)
Definition indeterminate_event : my_midi_event_t :=
  mk_event None None (replicate 16 None).

(** One [jack_midi_event_write] call as the port buffer keeps it: the frame
    offset and the [size] bytes copied from the data pointer. *)
Definition midi_write : Type := (Z * list cell)%type.

Record state : Type := mk_state {
  client_state : client_state_t;
  event_queue : list my_midi_event_t;
  queued_events_start : Z;          (* the index the producer writes at *)
  queued_events_end : Z;            (* the index the consumer reads at *)
  port_buffer : list midi_write;    (* the output port's buffer of the cycle *)
  stdout : list string              (* what printf has printed, oldest first *)
}.

Definition set_client_state (c : client_state_t) (st : state) : state :=
  mk_state c (event_queue st) (queued_events_start st) (queued_events_end st)
           (port_buffer st) (stdout st).

Definition set_event_queue (q : list my_midi_event_t) (st : state) : state :=
  mk_state (client_state st) q (queued_events_start st) (queued_events_end st)
           (port_buffer st) (stdout st).

Definition set_queued_events_start (i : Z) (st : state) : state :=
  mk_state (client_state st) (event_queue st) i (queued_events_end st)
           (port_buffer st) (stdout st).

Definition set_queued_events_end (i : Z) (st : state) : state :=
  mk_state (client_state st) (event_queue st) (queued_events_start st) i
           (port_buffer st) (stdout st).

Definition set_port_buffer (b : list midi_write) (st : state) : state :=
  mk_state (client_state st) (event_queue st) (queued_events_start st)
           (queued_events_end st) b (stdout st).

Definition printf (s : string) (st : state) : state :=
  mk_state (client_state st) (event_queue st) (queued_events_start st)
           (queued_events_end st) (port_buffer st) (stdout st ++ [s]).

(** Static storage is zero-initialised. *)
Definition zero_event : my_midi_event_t :=
  mk_event (Some 0) (Some 0) (replicate 16 (Some 0)).

Definition initial_state : state :=
  mk_state Run (replicate 256 zero_event) 0 0 [] [].

(** ** Array accesses

    [a[i]] read and written; outside [0 .. length a - 1] the access is
    undefined. *)

Definition array_get {A : Type} (a : list A) (i : Z) : result A :=
  if 0 <=? i then
    match a !! Z.to_nat i with
    | Some x => Ok x
    | None => Undefined
    end
  else Undefined.

Definition array_set {A : Type} (a : list A) (i : Z) (x : A) : result (list A) :=
  if (0 <=? i) && (i <? Z.of_nat (length a)) then Ok (<[Z.to_nat i := x]> a)
  else Undefined.

(** ** The JACK MIDI port buffer

    The buffer is the log of the events written to it since it was cleared;
    whether JACK has room for them is the host's business. *)

Definition jack_midi_clear_buffer (st : state) : state := set_port_buffer [] st.

(** The frame offset and the byte count are passed by value: an
    indeterminate one, or a count beyond the data, is undefined. *)
Definition jack_midi_event_write (t : cell) (data : list cell) (sz : cell)
    (st : state) : result state :=
  match t, sz with
  | Some t, Some sz =>
    if (0 <=? sz) && (sz <=? Z.of_nat (length data)) then
      Ok (set_port_buffer (port_buffer st ++ [(t, take (Z.to_nat sz) data)]) st)
    else Undefined
  | _, _ => Undefined
  end.

(** ** [process]: the realtime callback *)

(** The [while] loop of [process], at most [fuel] tests of its condition. *)
Fixpoint process_loop (fuel : nat) (st : state) : result state :=
  match fuel with
  | O => OutOfFuel
  | S fuel' =>
    if negb (queued_events_end st =? queued_events_start st) then
      ev ← array_get (event_queue st) (queued_events_end st);
      st1 ← jack_midi_event_write (time ev) (buffer ev) (size ev) st;
      process_loop fuel'
        (set_queued_events_end
           (Z.rem (queued_events_end st1 + 1) JACK_MIDI_QUEUE_SIZE) st1)
    else Ok st
  end.

Definition process (fuel : nat) (nframes : Z) (st : state) : result (Z * state) :=
  let st := jack_midi_clear_buffer st in
  st' ← process_loop fuel st;
  Ok (0, st').

(** ** [queue_event] *)

Definition queue_event (me : my_midi_event_t) (st : state) : result state :=
  if Z.rem (queued_events_start st + 1) JACK_MIDI_QUEUE_SIZE =? queued_events_end st
  then Ok st
  else
    q ← array_set (event_queue st) (queued_events_start st) me;
    let st := set_event_queue q st in
    Ok (set_queued_events_start
          (Z.rem (queued_events_start st + 1) JACK_MIDI_QUEUE_SIZE) st).

(** ** The C library: [strncmp] and [sscanf]

    A C string is the [string] of its characters before the terminator. *)

Definition code (c : ascii) : Z := Z.of_N (N_of_ascii c).

(** [strncmp s1 s2 n]: zero when the first [n] characters agree (or both
    strings end before that), else the difference at the first mismatch. *)
Fixpoint strncmp (s1 s2 : string) (n : nat) {struct n} : Z :=
  match n with
  | O => 0
  | S n' =>
    match s1, s2 with
    | EmptyString, EmptyString => 0
    | EmptyString, String c2 _ => 0 - code c2
    | String c1 _, EmptyString => code c1
    | String c1 r1, String c2 r2 =>
      if Ascii.eqb c1 c2 then strncmp r1 r2 n' else code c1 - code c2
    end
  end.

Definition LF : ascii := "010"%char.

(** [isspace] in the C locale: space, and the controls 9 to 13. *)
Definition isspace (c : ascii) : bool :=
  (code c =? 32) || ((9 <=? code c) && (code c <=? 13)).

Definition digit_val (c : ascii) : option Z :=
  let n := code c in
  if (48 <=? n) && (n <=? 57) then Some (n - 48)
  else if (97 <=? n) && (n <=? 102) then Some (n - 87)
  else if (65 <=? n) && (n <=? 70) then Some (n - 55)
  else None.

Definition is_digit (base : Z) (c : ascii) : bool :=
  match digit_val c with
  | Some d => d <? base
  | None => false
  end.

Fixpoint skip_space (s : string) : string :=
  match s with
  | String c r => if isspace c then skip_space r else s
  | EmptyString => s
  end.

(** The longest run of digits of [base] at the head of [s], accumulated
    onto [acc]. *)
Fixpoint scan_digits (base : Z) (s : string) (acc : Z) : Z * string :=
  match s with
  | String c r =>
    match digit_val c with
    | Some d => if d <? base then scan_digits base r (acc * base + d) else (acc, s)
    | None => (acc, s)
    end
  | EmptyString => (acc, s)
  end.

(** A run of at least one digit. *)
Definition scan_body (base : Z) (s : string) : option (Z * string) :=
  match s with
  | String c _ => if is_digit base c then Some (scan_digits base s 0) else None
  | EmptyString => None
  end.

Definition scan_sign (s : string) : bool * string :=
  match s with
  | String "-" r => (true, r)
  | String "+" r => (false, r)
  | _ => (false, s)
  end.

(** What follows a [0x] or [0X] prefix, if [s] has one. *)
Definition strip_0x (s : string) : option string :=
  match s with
  | String "0" (String "x" r) => Some r
  | String "0" (String "X" r) => Some r
  | _ => None
  end.

(** The digits of a [%i] ([auto], the base read off the prefix as [strtol]
    does with base 0) or of a [%x].  A [0x] with no hexadecimal digit behind
    it is not a number. *)
Definition scan_magnitude (auto : bool) (s : string) : option (Z * string) :=
  match strip_0x s with
  | Some r => scan_body 16 r
  | None =>
    if auto then
      match s with
      | String "0" _ => scan_body 8 s
      | _ => scan_body 10 s
      end
    else scan_body 16 s
  end.

Inductive conversion : Type :=
| Converted (v : Z) (rest : string)
| MatchingFailure
| InputFailure.

(** An [unsigned int] read back through an [int] lvalue. *)
Definition to_int32 (u : Z) : Z := (u + 2 ^ 31) mod 2 ^ 32 - 2 ^ 31.

(** One [%i] ([auto = true], stored in an [int]) or [%x] (stored as an
    [unsigned int] in the [int] it is given).  A value the object cannot
    hold is undefined. *)
Definition scan_int (auto : bool) (s : string) : result conversion :=
  match skip_space s with
  | EmptyString => Ok InputFailure
  | String c r =>
    let '(neg, s1) := scan_sign (String c r) in
    match scan_magnitude auto s1 with
    | None => Ok MatchingFailure
    | Some (m, rest) =>
      let v := if neg then - m else m in
      if auto then
        if (- 2 ^ 31 <=? v) && (v <? 2 ^ 31) then Ok (Converted v rest)
        else Undefined
      else
        if m <? 2 ^ 32 then Ok (Converted (to_int32 (v mod 2 ^ 32)) rest)
        else Undefined
    end
  end.

(** The directives the program's formats are made of. *)
Inductive directive : Type :=
| DWhite                 (* white space: any amount of it, also none *)
| DLit (c : ascii)       (* an ordinary character: exactly itself *)
| DConv (auto : bool).   (* [%i] when [auto], else [%x] *)

Fixpoint parse_format (f : string) : list directive :=
  match f with
  | EmptyString => []
  | String "%" (String "i" r) => DConv true :: parse_format r
  | String "%" (String "x" r) => DConv false :: parse_format r
  | String c r =>
    (if isspace c then DWhite else DLit c) :: parse_format r
  end.

(** Runs the directives over the input; returns whether it stopped on an
    input failure, and the values converted so far (in [acc] order). *)
Fixpoint run_directives (ds : list directive) (s : string) (acc : list Z)
  : result (bool * list Z) :=
  match ds with
  | [] => Ok (false, acc)
  | DWhite :: ds' => run_directives ds' (skip_space s) acc
  | DLit c :: ds' =>
    match s with
    | EmptyString => Ok (true, acc)
    | String c' r =>
      if Ascii.eqb c c' then run_directives ds' r acc else Ok (false, acc)
    end
  | DConv auto :: ds' =>
    cv ← scan_int auto s;
    match cv with
    | Converted v rest => run_directives ds' rest (acc ++ [v])
    | MatchingFailure => Ok (false, acc)
    | InputFailure => Ok (true, acc)
    end
  end.

Definition EOF : Z := -1.

(** [sscanf str format &param[0] &param[1] ...]: every call of the program
    passes the elements of [param] in order, so the k-th converted value is
    stored in [param[k]].  Returns the number of values assigned, or [EOF]
    on an input failure before the first one. *)
Definition sscanf (str format : string) (param : list cell)
  : result (Z * list cell) :=
  '(input_failure, vs) ← run_directives (parse_format format) str [];
  let n := if input_failure && (Nat.eqb (length vs) 0) then EOF
           else Z.of_nat (length vs) in
  Ok (n, list_inserts 0 (Some <$> vs) param).

(** ** [parse_message] *)

Definition cell_land (c : cell) (mask : Z) : cell := (fun v => Z.land v mask) <$> c.

(** [param[i]] for a constant index below 3. *)
Definition param_get (param : list cell) (i : nat) : cell := mjoin (param !! i).

(** The macro [THREEBYTES(A, B, C)]. *)
Definition THREEBYTES (event : my_midi_event_t) (A B C : cell) (st : state)
  : result state :=
  let event := set_size (Some 3) event in
  let event := set_buffer 0 (cell_land A 255) event in
  let event := set_buffer 1 (cell_land B 127) event in
  let event := set_buffer 2 (cell_land C 127) event in
  queue_event event st.

Definition help_text : string :=
  (" -- Sorry, help yourself and read the source." ++ String LF "")%string.

Definition invalid_text : string :=
  (" -- Invalid Message, try 'help'" ++ String LF "")%string.

(** A format or a line as the program has it: the text and a line feed. *)
Definition with_LF (s : string) : string := (s ++ String LF "")%string.

Definition parse_message (msg : string) (st : state) : result (Z * state) :=
  let param : list cell := [None; None; None] in
  let event := indeterminate_event in
  let event := set_time (Some 0) event in
  if strncmp msg "exit" 4 =? 0 then
    Ok (0, set_client_state Exit st)
  else if strncmp msg "reconnect" 9 =? 0 then
    Ok (1, st)
  else if strncmp msg "help" 4 =? 0 then
    Ok (0, printf help_text st)
  else
  '(n, param) ← sscanf msg (with_LF ". %x %x %x") param;
  if 3 =? n then
    st ← THREEBYTES event (param_get param 0) (param_get param 1) (param_get param 2) st;
    Ok (0, st)
  else
  '(n, param) ← sscanf msg (with_LF "CC %i %i") param;
  if 2 =? n then
    st ← THREEBYTES event (Some 176) (param_get param 0) (param_get param 1) st;
    Ok (0, st)
  else
  '(n, param) ← sscanf msg (with_LF "N %i %i") param;
  if 2 =? n then
    st ← THREEBYTES event (Some 144) (param_get param 0) (param_get param 1) st;
    Ok (0, st)
  else
  '(n, param) ← sscanf msg (with_LF "n %i %i") param;
  if 2 =? n then
    st ← THREEBYTES event (Some 128) (param_get param 0) (param_get param 1) st;
    Ok (0, st)
  else
  '(n, param) ← sscanf msg (with_LF "2 %i") param;
  if 2 =? n then
    let event := set_size (Some 2) event in
    let event := set_buffer 0 (cell_land (param_get param 0) 255) event in
    let event := set_buffer 1 (cell_land (param_get param 1) 255) event in
    st ← queue_event event st;
    Ok (0, st)
  else
  '(n, param) ← sscanf msg (with_LF "1 %i") param;
  if 1 =? n then
    let event := set_size (Some 1) event in
    let event := set_buffer 0 (cell_land (param_get param 0) 255) event in
    st ← queue_event event st;
    Ok (0, st)
  else
    Ok (0, printf invalid_text st).

(** ** Vocabulary of the statements *)

(** The caller's loop: one [queue_event] per event, in order. *)
Fixpoint queue_events (es : list my_midi_event_t) (st : state) : result state :=
  match es with
  | [] => Ok st
  | e :: es' => st' ← queue_event e st; queue_events es' st'
  end.

(** The queue as the program keeps it from its initial state on: 256 slots
    and both indices inside them. *)
Definition queue_wf (st : state) : Prop :=
  length (event_queue st) = 256%nat ∧
  0 ≤ queued_events_start st < 256 ∧
  0 ≤ queued_events_end st < 256.

Definition queue_full (st : state) : Prop :=
  (queued_events_start st + 1) mod 256 = queued_events_end st.

Definition queue_empty (st : state) : Prop :=
  queued_events_end st = queued_events_start st.

#[global] Instance my_midi_event_inhabited : Inhabited my_midi_event_t :=
  populate zero_event.

(** The number of events waiting, and the events themselves: the slots from
    the read index up to the write index, oldest first. *)
Definition queued_count (st : state) : Z :=
  (queued_events_start st - queued_events_end st) mod 256.

Definition slot_at (st : state) (k : Z) : my_midi_event_t :=
  event_queue st !!! Z.to_nat ((queued_events_end st + k) mod 256).

Definition queued (st : state) : list my_midi_event_t :=
  slot_at st <$> seqZ 0 (queued_count st).

(** An event [jack_midi_event_write] can be handed: frame offset and size
    are set, and the size is within the buffer. *)
Definition valid_event (e : my_midi_event_t) : bool :=
  match time e, size e with
  | Some _, Some n => (0 <=? n) && (n <=? Z.of_nat (length (buffer e)))
  | _, _ => false
  end.

(** What the port receives for an event. *)
Definition wire (e : my_midi_event_t) : midi_write :=
  (default 0 (time e), take (Z.to_nat (default 0 (size e))) (buffer e)).

(** The states that differ from [st] in the text printed only. *)
Definition same_but_stdout (st st' : state) : Prop :=
  client_state st' = client_state st ∧
  event_queue st' = event_queue st ∧
  queued_events_start st' = queued_events_start st ∧
  queued_events_end st' = queued_events_end st ∧
  port_buffer st' = port_buffer st.

(** The conversions of a directive list: an upper bound on what [sscanf]
    assigns. *)
Fixpoint conversions (ds : list directive) : nat :=
  match ds with
  | [] => 0
  | DConv _ :: ds' => S (conversions ds')
  | _ :: ds' => conversions ds'
  end.

(** The events of the [THREEBYTES] rules and of the one-byte rule: the
    bytes that were assigned, the rest of the buffer as the automatic
    variable had it. *)
Definition three_bytes (a b c : Z) : my_midi_event_t :=
  mk_event (Some 0) (Some 3) (Some a :: Some b :: Some c :: replicate 13 None).

Definition one_byte (a : Z) : my_midi_event_t :=
  mk_event (Some 0) (Some 1) (Some a :: replicate 15 None).

Definition parser_event (ev : my_midi_event_t) : Prop :=
  (∃ a b c, ev = three_bytes (Z.land a 255) (Z.land b 127) (Z.land c 127)) ∨
  (∃ a, ev = one_byte (Z.land a 255)).

(** The lines of the form [CC <int> <int>]: an [<int>] is an optional minus
    sign and decimal digits, given as the list of their values, with no
    leading zero (which [%i] would read as octal). *)
Definition digit_char (d : Z) : ascii := ascii_of_N (Z.to_N (48 + d)).

Fixpoint digits_string (ds : list Z) : string :=
  match ds with
  | [] => EmptyString
  | d :: ds' => String (digit_char d) (digits_string ds')
  end.

Definition digits_value (ds : list Z) : Z := foldl (fun acc d => acc * 10 + d) 0 ds.

Definition is_decimal_digit (d : Z) : bool := (0 <=? d) && (d <=? 9).

Definition decimal_digits (ds : list Z) : bool :=
  forallb is_decimal_digit ds &&
  match ds with
  | [] => false
  | [_] => true
  | d :: _ => negb (d =? 0)
  end.

Definition literal (neg : bool) (ds : list Z) : string :=
  if neg then String "-" (digits_string ds) else digits_string ds.

Definition literal_value (neg : bool) (ds : list Z) : Z :=
  if neg then - digits_value ds else digits_value ds.

Definition int_range (v : Z) : bool := (- 2 ^ 31 <=? v) && (v <? 2 ^ 31).

(** What may follow a number: the end of the line or white space. *)
Definition ends_number (s : string) : bool :=
  match s with
  | EmptyString => true
  | String c _ => isspace c
  end.

(** ** Sample states *)

(** A queue about to wrap around, a full one, and one with stale bytes in
    the port buffer. *)
Definition wrapping_state : state :=
  mk_state Run (replicate 256 zero_event) 255 255 [] [].

Definition full_state : state :=
  mk_state Run (replicate 256 zero_event) 255 0 [] [].

Definition stale_state : state :=
  mk_state Run (replicate 256 zero_event) 7 7 [(0, [Some 144; Some 60; Some 100])] [].

(** [initial_state] after one event has been stored in slot 0. *)
Definition one_queued (e : my_midi_event_t) : state :=
  set_queued_events_start 1
    (set_event_queue (<[0%nat := e]> (event_queue initial_state)) initial_state).

(** ** The outcome of a line

    [parse_message] taken apart as the spec does: [parse], what a line is,
    decided from the line alone by the tests of [parse_message] in their
    order, and [act], what [parse_message] does to the state for it.
    [parse_message_parse] shows the two put together are [parse_message].
    No test of the program gives [ONoop]. *)
Inductive Outcome : Type :=
| OEvent (e : my_midi_event_t)
| OExit
| OReconnect
| OHelp
| OInvalid
| ONoop.

(** The event [THREEBYTES(A, B, C)] has built when it calls [queue_event]. *)
Definition three_byte_event (event : my_midi_event_t) (A B C : cell)
  : my_midi_event_t :=
  let event := set_size (Some 3) event in
  let event := set_buffer 0 (cell_land A 255) event in
  let event := set_buffer 1 (cell_land B 127) event in
  set_buffer 2 (cell_land C 127) event.

Definition parse (line : string) : result Outcome :=
  let param : list cell := [None; None; None] in
  let event := set_time (Some 0) indeterminate_event in
  if strncmp line "exit" 4 =? 0 then Ok OExit
  else if strncmp line "reconnect" 9 =? 0 then Ok OReconnect
  else if strncmp line "help" 4 =? 0 then Ok OHelp
  else
  '(n, param) ← sscanf line (with_LF ". %x %x %x") param;
  if 3 =? n then
    Ok (OEvent (three_byte_event event (param_get param 0) (param_get param 1)
                  (param_get param 2)))
  else
  '(n, param) ← sscanf line (with_LF "CC %i %i") param;
  if 2 =? n then
    Ok (OEvent (three_byte_event event (Some 176) (param_get param 0)
                  (param_get param 1)))
  else
  '(n, param) ← sscanf line (with_LF "N %i %i") param;
  if 2 =? n then
    Ok (OEvent (three_byte_event event (Some 144) (param_get param 0)
                  (param_get param 1)))
  else
  '(n, param) ← sscanf line (with_LF "n %i %i") param;
  if 2 =? n then
    Ok (OEvent (three_byte_event event (Some 128) (param_get param 0)
                  (param_get param 1)))
  else
  '(n, param) ← sscanf line (with_LF "2 %i") param;
  if 2 =? n then
    Ok (OEvent (set_buffer 1 (cell_land (param_get param 1) 255)
                  (set_buffer 0 (cell_land (param_get param 0) 255)
                     (set_size (Some 2) event))))
  else
  '(n, param) ← sscanf line (with_LF "1 %i") param;
  if 1 =? n then
    Ok (OEvent (set_buffer 0 (cell_land (param_get param 0) 255)
                  (set_size (Some 1) event)))
  else Ok OInvalid.

Definition act (o : Outcome) (st : state) : result (Z * state) :=
  match o with
  | OEvent e => st' ← queue_event e st; Ok (0, st')
  | OExit => Ok (0, set_client_state Exit st)
  | OReconnect => Ok (1, st)
  | OHelp => Ok (0, printf help_text st)
  | OInvalid => Ok (0, printf invalid_text st)
  | ONoop => Ok (0, st)
  end.

(** The state after a line that holds no event and no command. *)
Definition diagnostic (o : Outcome) (st : state) : state :=
  match o with
  | OHelp => printf help_text st
  | OInvalid => printf invalid_text st
  | _ => st
  end.

(** ** Hexadecimal literals *)

(** The tokens of the [. <hex> <hex> <hex>] lines: hexadecimal digits,
    given as the list of their values, written in one case, with no sign
    and no [0x]. *)
Definition hex_char (upper : bool) (d : Z) : ascii :=
  if d <? 10 then ascii_of_N (Z.to_N (48 + d))
  else if upper then ascii_of_N (Z.to_N (55 + d))
  else ascii_of_N (Z.to_N (87 + d)).

Fixpoint hex_string (upper : bool) (ds : list Z) : string :=
  match ds with
  | [] => EmptyString
  | d :: ds' => String (hex_char upper d) (hex_string upper ds')
  end.

Definition hex_value (ds : list Z) : Z := foldl (fun acc d => acc * 16 + d) 0 ds.

Definition is_hex_digit (d : Z) : bool := (0 <=? d) && (d <=? 15).

Definition hex_digits (ds : list Z) : bool :=
  forallb is_hex_digit ds && negb (Nat.eqb (length ds) 0) && (hex_value ds <? 2 ^ 32).

(** ** Keywords *)

(** A string constant of the program has no NUL inside. *)
Fixpoint no_nul (p : string) : bool :=
  match p with
  | EmptyString => true
  | String c p' => negb (code c =? 0) && no_nul p'
  end.

(** ** Reachable states *)

(** The states the program's globals go through: the initial one, and what
    a call of [parse_message] or of [process] makes of a reachable one. *)
Inductive reachable : state → Prop :=
| reach_initial : reachable initial_state
| reach_parse (msg : string) (st : state) (r : Z) (st' : state) :
    reachable st → parse_message msg st = Ok (r, st') → reachable st'
| reach_process (fuel : nat) (nframes : Z) (st : state) (r : Z) (st' : state) :
    reachable st → process fuel nframes st = Ok (r, st') → reachable st'.

(** ** Rounds of producing and consuming *)

(** The two contexts taking turns: the control context hands a batch of
    events to [queue_event], then a cycle runs [process] and the host takes
    what is in the port buffer.  Returns all the host has taken. *)
Fixpoint run_rounds (fuel : nat) (nframes : Z)
    (rounds : list (list my_midi_event_t)) (st : state)
  : result (list midi_write * state) :=
  match rounds with
  | [] => Ok ([], st)
  | es :: rounds' =>
    st1 ← queue_events es st;
    '(_, st2) ← process fuel nframes st1;
    '(out, st3) ← run_rounds fuel nframes rounds' st2;
    Ok (port_buffer st2 ++ out, st3)
  end.

Definition round_ok (es : list my_midi_event_t) : bool :=
  (length es <=? 255)%nat && forallb valid_event es.

(** ** The control loop of [main], [port_connect] and the handlers

    Beside the globals the control context has the text written to standard
    error, the client handle, and the log of its [jack_connect] and
    [jack_client_close] calls, the calls that act on the graph and on the
    client.  The [jack_port_name] queries of [port_connect] are answered by
    the name given and are not part of the log. *)

Inductive jack_call : Type :=
| Connect (source destination : string)   (* jack_connect *)
| ClientClose.                            (* jack_client_close *)

Record world : Type := mk_world {
  globals : state;
  stderr : list string;          (* what fprintf(stderr, ...) has printed *)
  j_client : bool;               (* [j_client] is not NULL *)
  jack_calls : list jack_call    (* the logged calls made, oldest first *)
}.

Definition set_globals (st : state) (w : world) : world :=
  mk_world st (stderr w) (j_client w) (jack_calls w).

Definition eprintf (s : string) (w : world) : world :=
  mk_world (globals w) (stderr w ++ [s]) (j_client w) (jack_calls w).

Definition call_jack (c : jack_call) (w : world) : world :=
  mk_world (globals w) (stderr w) (j_client w) (jack_calls w ++ [c]).

Definition set_j_client (b : bool) (w : world) : world :=
  mk_world (globals w) (stderr w) b (jack_calls w).

(** What [select] and [fgets] hand one turn of the loop, or the handler
    that ran before the loop tested [client_state]. *)
Inductive handler : Type := Signal | Shutdown.

Inductive poll : Type :=
| SelectError               (* [select] returned a negative value *)
| SelectTimeout             (* it returned 0, or stdin is not in the set *)
| ReadEnd                   (* stdin was ready and [fgets] returned NULL *)
| ReadLine (buf : string)   (* stdin was ready and [fgets] stored [buf] *)
| Handler (h : handler).    (* [catchsig] or [jack_shutdown] has run *)

Section ControlLoop.

(** The answer of [jack_connect] for a source and a destination port,
    given the calls made so far (0 is success), and the name of the
    output port. *)
Variable jack_connect : list jack_call → string → string → Z.
Variable jack_port_name : string.

(** [cleanup]. *)
Definition cleanup (w : world) : world :=
  let w := if j_client w
           then set_j_client false (call_jack ClientClose w)
           else w in
  eprintf (with_LF "bye.") w.

(** [jack_shutdown] and [catchsig]. *)
Definition jack_shutdown (w : world) : world :=
  let w := eprintf (with_LF "recv. shutdown request from jackd.") w in
  set_globals (set_client_state Exit (globals w)) w.

Definition catchsig (w : world) : world :=
  let w := eprintf (with_LF "caught signal - shutting down.") w in
  set_globals (set_client_state Exit (globals w)) w.

Definition run_handler (h : handler) (w : world) : world :=
  match h with
  | Signal => catchsig w
  | Shutdown => jack_shutdown w
  end.

(** [port_connect]: [None] is a NULL pointer. *)
Definition port_connect (midi_port : option string) (w : world) : world :=
  match midi_port with
  | None => w
  | Some p =>
    let rc := jack_connect (jack_calls w) jack_port_name p in
    let w := call_jack (Connect jack_port_name p) w in
    if negb (rc =? 0) then
      eprintf (with_LF ("cannot connect port " ++ jack_port_name ++ " to " ++ p)) w
    else w
  end.

(** [cns = optind; while (cns < argc) port_connect(argv[cns++]);] with
    [ports] the arguments from [optind] on. *)
Fixpoint connect_ports (ports : list string) (w : world) : world :=
  match ports with
  | [] => w
  | p :: ports' => connect_ports ports' (port_connect (Some p) w)
  end.

(** The [while (client_state != Exit)] loop of [main], one element of
    [inputs] per turn; a loop still running when they are used up has not
    finished. *)
Fixpoint main_loop (ports : list string) (inputs : list poll) (w : world)
  : result world :=
  match client_state (globals w) with
  | Exit => Ok w
  | Run =>
    match inputs with
    | [] => OutOfFuel
    | Handler h :: rest => main_loop ports rest (run_handler h w)
    | SelectError :: _ => Ok w
    | SelectTimeout :: rest => main_loop ports rest w
    | ReadEnd :: _ => Ok w
    | ReadLine buf :: rest =>
      '(r, st) ← parse_message buf (globals w);
      let w := set_globals st w in
      let w := if r =? 1 then connect_ports ports w else w in
      let w := set_globals (printf "> " (globals w)) w in
      main_loop ports rest w
    end
  end.

(** [main] from the first prompt to its [return]. *)
Definition main_run (ports : list string) (inputs : list poll) (w : world)
  : result (Z * world) :=
  let w := set_globals (printf (String LF "> ") (globals w)) w in
  w ← main_loop ports inputs w;
  let w := set_globals (printf (String LF "") (globals w)) w in
  let w := cleanup w in
  Ok (0, w).

End ControlLoop.

(** The inputs after which the loop reads no more. *)
Definition stops (e : poll) : bool :=
  match e with
  | SelectError | ReadEnd | Handler _ => true
  | ReadLine buf => strncmp buf "exit" 4 =? 0
  | SelectTimeout => false
  end.

(** ** Sample worlds *)

Definition no_failure (calls : list jack_call) (source destination : string) : Z := 0.

Definition initial_world : world := mk_world initial_state [] true [].

Definition sample_ports : list string := ["synth:in"%string; "drum:in"%string].

(** 254 events waiting: room for one more. *)
Definition nearly_full_state : state :=
  mk_state Run (replicate 256 zero_event) 254 0 [] [].

(** * Properties *)

(** ** The queue *)

Lemma initial_state_wf : queue_wf initial_state.
Proof. repeat split; simpl; lia. Qed.

Lemma rem_256 (i : Z) : 0 ≤ i → Z.rem i JACK_MIDI_QUEUE_SIZE = i mod 256.
Proof. intros Hi. unfold JACK_MIDI_QUEUE_SIZE. apply Z.rem_mod_nonneg; lia. Qed.

Lemma queued_count_range (st : state) : 0 ≤ queued_count st < 256.
Proof. unfold queued_count. apply Z.mod_pos_bound. lia. Qed.

Lemma queued_count_empty (st : state) :
  queue_wf st → (queued_count st = 0 ↔ queue_empty st).
Proof.
  intros (_ & Hs & He). unfold queued_count, queue_empty.
  split; intros H; Z.to_euclidean_division_equations; lia.
Qed.

Lemma queued_count_full (st : state) :
  queue_wf st → (queued_count st = 255 ↔ queue_full st).
Proof.
  intros (_ & Hs & He). unfold queued_count, queue_full.
  split; intros H; Z.to_euclidean_division_equations; lia.
Qed.

Lemma queue_event_full (e : my_midi_event_t) (st : state) :
  queue_wf st → queue_full st → queue_event e st = Ok st.
Proof.
  intros (_ & Hs & _) Hf. unfold queue_event, queue_full in *.
  rewrite rem_256 by lia. rewrite Hf, Z.eqb_refl. reflexivity.
Qed.

Lemma queue_event_not_full (e : my_midi_event_t) (st : state) :
  queue_wf st → ¬ queue_full st →
  queue_event e st =
    Ok (set_queued_events_start ((queued_events_start st + 1) mod 256)
          (set_event_queue (<[Z.to_nat (queued_events_start st) := e]> (event_queue st)) st)).
Proof.
  intros (Hl & Hs & _) Hf. unfold queue_event, queue_full in *.
  rewrite rem_256 by lia.
  destruct (Z.eqb_spec ((queued_events_start st + 1) mod 256) (queued_events_end st))
    as [E|_]; [contradiction|].
  unfold array_set. rewrite Hl.
  replace ((0 <=? queued_events_start st) && (queued_events_start st <? Z.of_nat 256))
    with true by (symmetry; apply andb_true_intro; split; [apply Z.leb_le|apply Z.ltb_lt]; lia).
  simpl. rewrite rem_256 by lia. reflexivity.
Qed.

Lemma queue_event_wf (e : my_midi_event_t) (st st' : state) :
  queue_wf st → queue_event e st = Ok st' → queue_wf st'.
Proof.
  intros Hwf H. destruct (Z.eq_dec ((queued_events_start st + 1) mod 256)
                                     (queued_events_end st)) as [Hf|Hf].
  - rewrite queue_event_full in H by done. by inversion H; subst.
  - rewrite queue_event_not_full in H by done. inversion H; subst; clear H.
    destruct Hwf as (Hl & Hs & He). repeat split; simpl; try lia.
    + by rewrite length_insert.
    + apply Z.mod_pos_bound; lia.
    + apply Z.mod_pos_bound; lia.
Qed.

(** A successful [queue_event] puts its event behind the ones waiting. *)
Lemma queued_queue_event (e : my_midi_event_t) (st : state) :
  queue_wf st → ¬ queue_full st →
  ∃ st', queue_event e st = Ok st' ∧ queue_wf st' ∧
         queued st' = queued st ++ [e] ∧
         port_buffer st' = port_buffer st.
Proof.
  intros Hwf Hf. eexists. split; [by apply queue_event_not_full|].
  split; [eapply queue_event_wf; [done|by apply queue_event_not_full]|].
  split; [|done].
  pose proof (queued_count_range st) as Hn.
  assert (queued_count st ≠ 255) as Hn' by (by rewrite queued_count_full).
  destruct Hwf as (Hl & Hs & He).
  set (st' := set_queued_events_start _ _).
  assert (queued_count st' = queued_count st + 1) as Hc.
  { unfold queued_count in *. subst st'. simpl.
    Z.to_euclidean_division_equations; lia. }
  unfold queued. rewrite Hc, seqZ_app, fmap_app by lia. f_equal.
  - apply Forall_fmap_ext_1, Forall_seqZ. intros k Hk.
    unfold slot_at. subst st'. simpl.
    apply list_lookup_total_insert_ne.
    intros Heq. apply (f_equal Z.of_nat) in Heq.
    rewrite !Z2Nat.id in Heq by (try apply Z.mod_pos_bound; lia).
    unfold queued_count in *. Z.to_euclidean_division_equations; lia.
  - rewrite seqZ_cons, seqZ_nil by lia.
    simpl. f_equal. unfold slot_at. subst st'. simpl.
    replace ((queued_events_end st + (0 + queued_count st)) mod 256)
      with (queued_events_start st)
      by (unfold queued_count; Z.to_euclidean_division_equations; lia).
    apply list_lookup_total_insert_eq. lia.
Qed.

(** ** The realtime callback *)

Lemma jack_midi_event_write_valid (e : my_midi_event_t) (st : state) :
  valid_event e = true →
  jack_midi_event_write (time e) (buffer e) (size e) st =
    Ok (set_port_buffer (port_buffer st ++ [wire e]) st).
Proof.
  unfold valid_event, jack_midi_event_write, wire.
  destruct (time e) as [t|], (size e) as [n|]; try discriminate.
  intros ->. reflexivity.
Qed.

(** The oldest event waiting is the slot at the read index; the others are
    what waits once the read index has moved on. *)
Lemma queued_cons (st : state) :
  queue_wf st → ¬ queue_empty st →
  queued st =
    slot_at st 0 ::
    queued (set_queued_events_end ((queued_events_end st + 1) mod 256) st).
Proof.
  intros Hwf Hne. pose proof (queued_count_range st) as Hn.
  assert (queued_count st ≠ 0) as Hn' by (by rewrite queued_count_empty).
  destruct Hwf as (Hl & Hs & He).
  unfold queued. rewrite seqZ_cons by lia. simpl. f_equal.
  set (st' := set_queued_events_end _ _).
  assert (queued_count st' = Z.pred (queued_count st)) as ->.
  { unfold queued_count, queue_empty in *. subst st'. simpl.
    Z.to_euclidean_division_equations; lia. }
  change (Z.succ 0) with (1 + 0). rewrite <- fmap_add_seqZ, <- list_fmap_compose.
  apply Forall_fmap_ext_1, Forall_seqZ. intros k Hk.
  unfold slot_at. subst st'. simpl. do 2 f_equal.
  rewrite Zplus_mod_idemp_l. f_equal. lia.
Qed.

Lemma process_loop_drains (n : nat) :
  ∀ (st : state) (fuel : nat),
    queue_wf st → queued_count st = Z.of_nat n →
    Forall (λ e, valid_event e = true) (queued st) → (n < fuel)%nat →
    process_loop fuel st =
      Ok (set_queued_events_end (queued_events_start st)
            (set_port_buffer (port_buffer st ++ (wire <$> queued st)) st)).
Proof.
  induction n as [|n IH]; intros st fuel Hwf Hc Hv Hfuel;
    (destruct fuel as [|fuel]; [lia|]); simpl.
  - apply queued_count_empty in Hc; [|done]. unfold queue_empty in Hc.
    unfold queued. rewrite (proj2 (queued_count_empty st Hwf) Hc).
    rewrite Hc, Z.eqb_refl. simpl. rewrite app_nil_r.
    destruct st; simpl in *; by subst.
  - assert (¬ queue_empty st) as Hne.
    { rewrite <- queued_count_empty by done. lia. }
    destruct (Z.eqb_spec (queued_events_end st) (queued_events_start st))
      as [E|_]; [contradiction|].
    rewrite (queued_cons st Hwf Hne) in Hv |- *.
    apply Forall_cons in Hv as [Hv0 Hv].
    destruct Hwf as (Hl & Hs & He). simpl.
    assert (array_get (event_queue st) (queued_events_end st) = Ok (slot_at st 0))
      as ->.
    { unfold array_get, slot_at. destruct (Z.leb_spec 0 (queued_events_end st)); [|lia].
      rewrite Z.add_0_r, Z.mod_small by lia.
      rewrite list_lookup_lookup_total_lt by lia. reflexivity. }
    simpl. rewrite jack_midi_event_write_valid by done. simpl.
    rewrite rem_256 by lia.
    match goal with |- process_loop _ ?s = _ => set (st' := s) end.
    rewrite (IH st').
    + subst st'. simpl. rewrite <- app_assoc. reflexivity.
    + subst st'. repeat split; simpl; try lia; apply Z.mod_pos_bound; lia.
    + subst st'. unfold queued_count, queue_empty in *. simpl.
      Z.to_euclidean_division_equations; lia.
    + subst st'. exact Hv.
    + lia.
Qed.

Lemma process_loop_wf (fuel : nat) :
  ∀ st st' : state, queue_wf st → process_loop fuel st = Ok st' → queue_wf st'.
Proof.
  induction fuel as [|fuel IH]; intros st st' Hwf H; simpl in H; [discriminate|].
  destruct (negb _); [|by inversion H; subst].
  destruct (array_get _ _) as [ev| |]; cbn in H; try discriminate.
  destruct (jack_midi_event_write _ _ _ _) as [st1| |] eqn:E; cbn in H;
    try discriminate.
  apply IH in H; [done|].
  unfold jack_midi_event_write in E.
  destruct (time ev), (size ev); try discriminate.
  destruct (_ && _); [|discriminate]. inversion E; subst; clear E.
  destruct Hwf as (Hl & Hs & He). repeat split; simpl; try lia;
    rewrite rem_256 by lia; apply Z.mod_pos_bound; lia.
Qed.

Lemma length_queued (st : state) : Z.of_nat (length (queued st)) = queued_count st.
Proof.
  unfold queued. rewrite length_fmap, length_seqZ.
  pose proof (queued_count_range st). lia.
Qed.

Lemma queue_events_queued (es : list my_midi_event_t) :
  ∀ st : state,
    queue_wf st → queued_count st + Z.of_nat (length es) ≤ 255 →
    ∃ st', queue_events es st = Ok st' ∧ queue_wf st' ∧
           queued st' = queued st ++ es ∧ port_buffer st' = port_buffer st.
Proof.
  induction es as [|e es IH]; intros st Hwf Hlen; simpl in *.
  - exists st. by rewrite app_nil_r.
  - assert (¬ queue_full st) as Hnf.
    { rewrite <- queued_count_full by done. lia. }
    destruct (queued_queue_event e st Hwf Hnf) as (st1 & -> & Hwf1 & Hq1 & Hp1).
    simpl. destruct (IH st1 Hwf1) as (st' & -> & Hwf' & Hq' & Hp').
    { pose proof (length_queued st) as H0. pose proof (length_queued st1) as H1.
      rewrite Hq1, length_app in H1. simpl in H1. lia. }
    exists st'. repeat split; try apply Hwf'.
    + by rewrite Hq', Hq1, <- app_assoc.
    + congruence.
Qed.

(** C1. Round trip through the queue: any at most 255 events handed to
    [queue_event] one after the other, starting from an empty queue, are all
    stored, and the next [process] call writes exactly them to the port, in
    the order they came, and leaves the queue empty. *)
Theorem fifo_round_trip (es : list my_midi_event_t) (st : state)
    (fuel : nat) (nframes : Z) :
  queue_wf st → queue_empty st →
  (length es ≤ 255)%nat → forallb valid_event es = true →
  (length es < fuel)%nat →
  ∃ st1 st2,
    queue_events es st = Ok st1 ∧ queued st1 = es ∧
    process fuel nframes st1 = Ok (0, st2) ∧
    port_buffer st2 = wire <$> es ∧
    queue_empty st2 ∧ queued st2 = [].
Proof.
  intros Hwf Hem Hlen Hv Hfuel.
  assert (queued_count st = 0) as Hc by (by apply queued_count_empty).
  destruct (queue_events_queued es st Hwf) as (st1 & Hq & Hwf1 & Hes & _); [lia|].
  assert (queued st = []) as Hnil by (unfold queued; by rewrite Hc).
  rewrite Hnil in Hes. simpl in Hes.
  exists st1. eexists. split; [done|]. split; [done|].
  unfold process.
  rewrite (process_loop_drains (length es)); simpl.
  - split; [reflexivity|].
    change (queued (jack_midi_clear_buffer st1)) with (queued st1).
    rewrite Hes. repeat split.
    unfold queued, queued_count. simpl. by rewrite Z.sub_diag.
  - apply Hwf1.
  - change (queued_count st1 = Z.of_nat (length es)).
    by rewrite <- length_queued, Hes.
  - change (Forall (λ e, valid_event e = true) (queued st1)). rewrite Hes.
    apply Forall_forall. intros e He. rewrite forallb_forall in Hv.
    apply Hv. by apply list_elem_of_In.
  - done.
Qed.

(** C2. On a full queue [queue_event] returns at once and the whole state,
    so also both indices and every slot, is as before; on any other queue
    it stores the event in the slot at the write index and moves the write
    index on by one modulo 256, touching nothing else. *)
Theorem queue_event_full_or_store (e : my_midi_event_t) (st : state) :
  queue_wf st →
  (queue_full st → queue_event e st = Ok st) ∧
  (¬ queue_full st →
   ∃ st', queue_event e st = Ok st' ∧
     event_queue st' = <[Z.to_nat (queued_events_start st) := e]> (event_queue st) ∧
     event_queue st' !! Z.to_nat (queued_events_start st) = Some e ∧
     queued_events_start st' = (queued_events_start st + 1) mod 256 ∧
     queued_events_end st' = queued_events_end st ∧
     client_state st' = client_state st ∧
     port_buffer st' = port_buffer st ∧
     stdout st' = stdout st).
Proof.
  intros Hwf. split; intros Hf.
  - by apply queue_event_full.
  - eexists. split; [by apply queue_event_not_full|]. simpl.
    repeat split. destruct Hwf as (Hl & Hs & _).
    apply list_lookup_insert_eq. lia.
Qed.

(** C7. A [process] call on an empty queue (read index equal to write
    index) clears the port buffer, writes nothing to it, and leaves the
    indices and everything else as they were. *)
Theorem process_empty_queue_silent (st : state) (fuel : nat) (nframes : Z) :
  queue_empty st →
  process (S fuel) nframes st = Ok (0, set_port_buffer [] st).
Proof.
  unfold queue_empty, process. intros He. simpl.
  rewrite He, Z.eqb_refl. reflexivity.
Qed.

(** ** The C library model *)

Lemma run_directives_assigns (ds : list directive) :
  ∀ (s : string) (acc : list Z) (b : bool) (vs : list Z),
    run_directives ds s acc = Ok (b, vs) →
    ∃ new, vs = acc ++ new ∧ (length new ≤ conversions ds)%nat.
Proof.
  induction ds as [|d ds IH]; intros s acc b vs H; simpl in H.
  - inversion H; subst. exists []. by rewrite app_nil_r.
  - destruct d as [|c|auto].
    + apply IH in H. exact H.
    + destruct s as [|c' r].
      * inversion H; subst. exists []. rewrite app_nil_r. simpl. split; [done|lia].
      * destruct (Ascii.eqb c c').
        -- apply IH in H. exact H.
        -- inversion H; subst. exists []. rewrite app_nil_r. simpl. split; [done|lia].
    + destruct (scan_int auto s) as [[v rest| |]| |]; simpl in H; try discriminate.
      * apply IH in H as (new & -> & Hlen). exists (v :: new).
        rewrite <- app_assoc. simpl. split; [done|lia].
      * inversion H; subst. exists []. rewrite app_nil_r. simpl. split; [done|lia].
      * inversion H; subst. exists []. rewrite app_nil_r. simpl. split; [done|lia].
Qed.

(** What a returning [sscanf] has done: it converted some values, no more
    than the format has conversions, stored them at the head of [param],
    and returned their number (or [EOF] when there are none). *)
Lemma sscanf_inv (str format : string) (param : list cell) (n : Z)
    (param' : list cell) :
  sscanf str format param = Ok (n, param') →
  ∃ vs : list Z,
    (length vs ≤ conversions (parse_format format))%nat ∧
    param' = list_inserts 0 (Some <$> vs) param ∧
    (n = Z.of_nat (length vs) ∨ (n = EOF ∧ vs = [])).
Proof.
  unfold sscanf. intros H.
  destruct (run_directives (parse_format format) str []) as [[b vs]| |] eqn:E;
    simpl in H; try discriminate.
  apply run_directives_assigns in E as (new & -> & Hlen). simpl in *.
  inversion H; subst; clear H. exists new. split; [done|]. split; [done|].
  destruct new as [|v new]; simpl.
  - destruct b; simpl; auto.
  - left. by rewrite andb_false_r.
Qed.

Lemma sscanf_length (str format : string) (param : list cell) (n : Z)
    (param' : list cell) :
  sscanf str format param = Ok (n, param') → length param' = length param.
Proof.
  intros H. apply sscanf_inv in H as (vs & _ & -> & _). apply length_inserts.
Qed.

(** ** The parser *)

Lemma sscanf_three (str format : string) (param param' : list cell) :
  length param = 3%nat →
  sscanf str format param = Ok (3, param') →
  (conversions (parse_format format) ≤ 3)%nat →
  ∃ a b c, param' = [Some a; Some b; Some c].
Proof.
  intros Hl H Hc. apply sscanf_inv in H as (vs & Hlen & -> & [Hn|[Hn _]]);
    [|discriminate].
  destruct vs as [|a [|b [|c [|d vs]]]]; simpl in *; try lia.
  exists a, b, c. by destruct param as [|x [|y [|z [|? ?]]]].
Qed.

Lemma sscanf_two (str format : string) (param param' : list cell) :
  length param = 3%nat →
  sscanf str format param = Ok (2, param') →
  ∃ a b c, param' = [Some a; Some b; c] ∧
           (2 ≤ conversions (parse_format format))%nat.
Proof.
  intros Hl H. apply sscanf_inv in H as (vs & Hlen & -> & [Hn|[Hn _]]);
    [|discriminate].
  destruct vs as [|a [|b [|c vs]]]; simpl in *; try lia.
  destruct param as [|x [|y [|z [|? ?]]]]; try discriminate.
  by exists a, b, z.
Qed.

Lemma sscanf_one (str format : string) (param param' : list cell) :
  length param = 3%nat →
  sscanf str format param = Ok (1, param') →
  ∃ a b c, param' = [Some a; b; c].
Proof.
  intros Hl H. apply sscanf_inv in H as (vs & Hlen & -> & [Hn|[Hn _]]);
    [|discriminate].
  destruct vs as [|a [|b vs]]; simpl in *; try lia.
  destruct param as [|x [|y [|z [|? ?]]]]; try discriminate.
  by exists a, y, z.
Qed.

(** One [else if (k == sscanf (...))] of [parse_message]. *)
Ltac scan_step H n p E :=
  match type of H with
  | context [sscanf ?m ?f ?q] =>
    destruct (sscanf m f q) as [[n p]| |] eqn:E;
    cbn [mbind result_bind] in H; try discriminate H
  end.

(** The five ways [parse_message] returns. *)
Lemma parse_message_cases (msg : string) (st : state) (r : Z) (st' : state) :
  parse_message msg st = Ok (r, st') →
  (r = 0 ∧ st' = set_client_state Exit st) ∨
  (r = 1 ∧ st' = st) ∨
  (r = 0 ∧ st' = printf help_text st) ∨
  (r = 0 ∧ st' = printf invalid_text st) ∨
  (r = 0 ∧ ∃ ev, parser_event ev ∧ queue_event ev st = Ok st').
Proof.
  unfold parse_message. intros H.
  destruct (strncmp msg "exit" 4 =? 0); [inversion H; auto|].
  destruct (strncmp msg "reconnect" 9 =? 0); [inversion H; auto|].
  destruct (strncmp msg "help" 4 =? 0); [inversion H; auto|].
  scan_step H n1 p1 E1.
  pose proof (sscanf_length _ _ _ _ _ E1) as L1.
  destruct (Z.eqb_spec 3 n1) as [<-|_].
  { apply sscanf_three in E1 as (a & b & c & ->); [|done|simpl; lia].
    unfold THREEBYTES in H. cbn in H.
    destruct (queue_event _ st) as [s| |] eqn:Q; cbn in H; try discriminate.
    inversion H; subst. do 4 right. split; [done|].
    eexists. split; [|exact Q]. left. by exists a, b, c. }
  scan_step H n2 p2 E2.
  pose proof (sscanf_length _ _ _ _ _ E2) as L2.
  destruct (Z.eqb_spec 2 n2) as [<-|_].
  { apply sscanf_two in E2 as (a & b & c & -> & _); [|simpl in *; congruence].
    unfold THREEBYTES in H. cbn in H.
    destruct (queue_event _ st) as [s| |] eqn:Q; cbn in H; try discriminate.
    inversion H; subst. do 4 right. split; [done|].
    eexists. split; [|exact Q]. left. by exists 176, a, b. }
  scan_step H n3 p3 E3.
  pose proof (sscanf_length _ _ _ _ _ E3) as L3.
  destruct (Z.eqb_spec 2 n3) as [<-|_].
  { apply sscanf_two in E3 as (a & b & c & -> & _); [|simpl in *; congruence].
    unfold THREEBYTES in H. cbn in H.
    destruct (queue_event _ st) as [s| |] eqn:Q; cbn in H; try discriminate.
    inversion H; subst. do 4 right. split; [done|].
    eexists. split; [|exact Q]. left. by exists 144, a, b. }
  scan_step H n4 p4 E4.
  pose proof (sscanf_length _ _ _ _ _ E4) as L4.
  destruct (Z.eqb_spec 2 n4) as [<-|_].
  { apply sscanf_two in E4 as (a & b & c & -> & _); [|simpl in *; congruence].
    unfold THREEBYTES in H. cbn in H.
    destruct (queue_event _ st) as [s| |] eqn:Q; cbn in H; try discriminate.
    inversion H; subst. do 4 right. split; [done|].
    eexists. split; [|exact Q]. left. by exists 128, a, b. }
  scan_step H n5 p5 E5.
  pose proof (sscanf_length _ _ _ _ _ E5) as L5.
  destruct (Z.eqb_spec 2 n5) as [<-|_].
  { apply sscanf_two in E5 as (a & b & c & _ & Hc); [|simpl in *; congruence].
    simpl in Hc. lia. }
  scan_step H n6 p6 E6.
  destruct (Z.eqb_spec 1 n6) as [<-|_].
  { apply sscanf_one in E6 as (a & b & c & ->); [|simpl in *; congruence].
    cbn in H.
    destruct (queue_event _ st) as [s| |] eqn:Q; cbn in H; try discriminate.
    inversion H; subst. do 4 right. split; [done|].
    eexists. split; [|exact Q]. right. by exists a. }
  inversion H; subst. do 3 right. by left.
Qed.

Lemma queue_event_frame (e : my_midi_event_t) (st st' : state) :
  queue_event e st = Ok st' →
  client_state st' = client_state st ∧ stdout st' = stdout st ∧
  port_buffer st' = port_buffer st ∧ queued_events_end st' = queued_events_end st.
Proof.
  unfold queue_event. intros H.
  destruct (_ =? _); [by inversion H|].
  destruct (array_set _ _ _) as [q| |]; cbn in H; try discriminate.
  by inversion H.
Qed.

(** When [parse_message] has moved the write index, it has stored one of
    the parser's events in the slot the index was at, behind the events
    already waiting. *)
Lemma parse_message_enqueued (msg : string) (st : state) (r : Z) (st' : state) :
  queue_wf st →
  parse_message msg st = Ok (r, st') →
  queued_events_start st' ≠ queued_events_start st →
  ∃ ev, parser_event ev ∧
        event_queue st' !! Z.to_nat (queued_events_start st) = Some ev ∧
        queued st' = queued st ++ [ev].
Proof.
  intros Hwf H Hne.
  apply parse_message_cases in H
    as [[_ ->]|[[_ ->]|[[_ ->]|[[_ ->]|[_ (ev & Hev & Hq)]]]]]; try done.
  exists ev. split; [done|].
  destruct (Z.eq_dec ((queued_events_start st + 1) mod 256) (queued_events_end st))
    as [Hf|Hf].
  { rewrite queue_event_full in Hq by done. inversion Hq; by subst. }
  destruct (queued_queue_event ev st Hwf Hf) as (st1 & Hq1 & _ & Happ & _).
  rewrite Hq in Hq1. inversion Hq1; subst st1. split; [|done]. clear Hq1 Happ.
  rewrite queue_event_not_full in Hq by done. inversion Hq; subst; simpl.
  destruct Hwf as (Hl & Hs & _). apply list_lookup_insert_eq. lia.
Qed.

Lemma parse_message_wf (msg : string) (st : state) (r : Z) (st' : state) :
  queue_wf st → parse_message msg st = Ok (r, st') → queue_wf st'.
Proof.
  intros Hwf H.
  apply parse_message_cases in H
    as [[_ ->]|[[_ ->]|[[_ ->]|[[_ ->]|[_ (ev & _ & Hq)]]]]]; try done.
  by apply (queue_event_wf ev st).
Qed.

(** A format that opens with an ordinary character converts nothing on an
    input that opens with another one. *)
Lemma sscanf_head_mismatch (c : ascii) (r format : string) (param : list cell) :
  match parse_format format with
  | DLit c' :: _ => negb (Ascii.eqb c' c)
  | _ => false
  end = true →
  sscanf (String c r) format param = Ok (0, param).
Proof.
  unfold sscanf. destruct (parse_format format) as [|[|c'|auto] ds]; try discriminate.
  simpl. destruct (Ascii.eqb c' c); [discriminate|]. reflexivity.
Qed.

Lemma strncmp_head_mismatch (c1 c2 : ascii) (r1 r2 : string) (n : nat) :
  Ascii.eqb c1 c2 = false →
  (strncmp (String c1 r1) (String c2 r2) (S n) =? 0) = false.
Proof.
  intros H. simpl. rewrite H. apply Z.eqb_neq. intros E.
  assert (N_of_ascii c1 = N_of_ascii c2) as E' by (unfold code in E; lia).
  apply (f_equal ascii_of_N) in E'. rewrite !ascii_N_embedding in E'.
  subst. by rewrite Ascii.eqb_refl in H.
Qed.

(** C4. Every line whose first four characters are [exit], whatever comes
    after them, sets [client_state] to [Exit] and returns 0 at once: no
    slot and no index of the queue changes, nothing is printed, and no later
    rule is looked at. *)
Theorem parse_exit_prefix (rest : string) (st : state) :
  parse_message ("exit" ++ rest) st = Ok (0, set_client_state Exit st) ∧
  parse_message "exitNOW" st = Ok (0, set_client_state Exit st) ∧
  queued (set_client_state Exit st) = queued st ∧
  event_queue (set_client_state Exit st) = event_queue st ∧
  queued_events_start (set_client_state Exit st) = queued_events_start st ∧
  stdout (set_client_state Exit st) = stdout st.
Proof. repeat split. Qed.

(** C6. Whenever [parse_message] enqueues an event, the event stored (in
    the slot the write index was at, behind the events already waiting) has
    its [time] field equal to 0. *)
Theorem parsed_event_time_zero (msg : string) (st : state) (r : Z) (st' : state) :
  queue_wf st →
  parse_message msg st = Ok (r, st') →
  queued_events_start st' ≠ queued_events_start st →
  ∃ ev, event_queue st' !! Z.to_nat (queued_events_start st) = Some ev ∧
        queued st' = queued st ++ [ev] ∧
        time ev = Some 0.
Proof.
  intros Hwf H Hne.
  destruct (parse_message_enqueued msg st r st' Hwf H Hne) as (ev & Hev & Hs & Hq).
  exists ev. repeat split; try done.
  by destruct Hev as [(a & b & c & ->)|(a & ->)].
Qed.

(** C10. Whenever [parse_message] enqueues an event, its [size] is 1, 2 or
    3, its buffer has 16 cells, the first [size] of them are assigned, and
    [jack_midi_event_write] reads within them. *)
Theorem parsed_event_size_bounded (msg : string) (st : state) (r : Z) (st' : state) :
  queue_wf st →
  parse_message msg st = Ok (r, st') →
  queued_events_start st' ≠ queued_events_start st →
  ∃ ev n, event_queue st' !! Z.to_nat (queued_events_start st) = Some ev ∧
          queued st' = queued st ++ [ev] ∧
          size ev = Some n ∧ (n = 1 ∨ n = 2 ∨ n = 3) ∧
          length (buffer ev) = 16%nat ∧
          n ≤ Z.of_nat (length (buffer ev)) ∧
          Forall is_Some (take (Z.to_nat n) (buffer ev)) ∧
          valid_event ev = true.
Proof.
  intros Hwf H Hne.
  destruct (parse_message_enqueued msg st r st' Hwf H Hne) as (ev & Hev & Hs & Hq).
  exists ev.
  destruct Hev as [(a & b & c & ->)|(a & ->)].
  - exists 3. repeat split; try done; simpl; auto with lia.
  - exists 1. repeat split; try done; simpl; auto with lia.
Qed.

(** The [help] branch: every line that begins with [help] has the help text
    printed, and that is all. *)
Lemma parse_help_prefix (rest : string) (st : state) :
  parse_message ("help" ++ rest) st = Ok (0, printf help_text st).
Proof. reflexivity. Qed.

(** The final [else]: a line no rule takes, as [garbage text] is, has the
    invalid-message text printed, and that is all. *)
Lemma parse_garbage (st : state) :
  parse_message (with_LF "garbage text") st = Ok (0, printf invalid_text st).
Proof. reflexivity. Qed.

(** Whenever [parse_message] prints a diagnostic, which it does in the
    [help] branch and in the final [else] and nowhere else, it returns 0
    and the state differs in the printed text alone. *)
Lemma printing_leaves_state (msg : string) (st : state) (r : Z) (st' : state) :
  parse_message msg st = Ok (r, st') →
  stdout st' ≠ stdout st →
  r = 0 ∧ same_but_stdout st st' ∧
  (st' = printf help_text st ∨ st' = printf invalid_text st).
Proof.
  intros H Hne.
  apply parse_message_cases in H
    as [[_ ->]|[[_ ->]|[[-> ->]|[[-> ->]|[_ (ev & _ & Hq)]]]]]; try done.
  - repeat split. by left.
  - repeat split. by right.
  - apply queue_event_frame in Hq as (_ & Hs & _). contradiction.
Qed.

(** One [else if (k == sscanf (...))] of [parse_message] and of [parse],
    side by side. *)
Ltac same_scan :=
  match goal with
  | |- context [sscanf ?m ?f ?q] =>
    destruct (sscanf m f q) as [[? ?]| |]; cbn [mbind result_bind];
    [|reflexivity|reflexivity];
    match goal with
    | |- context [?k =? ?n] => destruct (k =? n); [reflexivity|]
    end
  end.

(** [parse_message] is [parse] followed by [act]. *)
Lemma parse_message_parse (msg : string) (st : state) :
  parse_message msg st = (o ← parse msg; act o st).
Proof.
  unfold parse_message, parse.
  destruct (strncmp msg "exit" 4 =? 0); [reflexivity|].
  destruct (strncmp msg "reconnect" 9 =? 0); [reflexivity|].
  destruct (strncmp msg "help" 4 =? 0); [reflexivity|].
  do 6 same_scan. reflexivity.
Qed.

(** No line is a Noop. *)
Lemma parse_no_noop (msg : string) : parse msg ≠ Ok ONoop.
Proof.
  unfold parse.
  destruct (strncmp msg "exit" 4 =? 0); [done|].
  destruct (strncmp msg "reconnect" 9 =? 0); [done|].
  destruct (strncmp msg "help" 4 =? 0); [done|].
  do 6 (match goal with
        | |- context [sscanf ?m ?f ?q] =>
          destruct (sscanf m f q) as [[? ?]| |]; cbn [mbind result_bind];
          [|done|done];
          match goal with
          | |- context [?k =? ?n] => destruct (k =? n); [done|]
          end
        end).
  done.
Qed.

Lemma parse_help_line (rest : string) : parse ("help" ++ rest) = Ok OHelp.
Proof. reflexivity. Qed.

(** C8. A line whose outcome is Help, Invalid or Noop, so every line that
    begins with [help] and every line that no rule takes, makes
    [parse_message] return 0 with a state that differs from the one it was
    given in the printed text alone (the help text, the invalid-message
    text): [client_state], every slot, both indices and the port buffer
    are as before. *)
Theorem diagnostics_leave_state (msg : string) (st : state) :
  (∀ rest, msg = ("help" ++ rest)%string → parse msg = Ok OHelp) ∧
  (∀ o, parse msg = Ok o →
        o = OHelp ∨ o = OInvalid ∨ o = ONoop →
        parse_message msg st = Ok (0, diagnostic o st) ∧
        same_but_stdout st (diagnostic o st)).
Proof.
  split.
  - intros rest ->. apply parse_help_line.
  - intros o Ho Hcase. rewrite parse_message_parse, Ho.
    destruct Hcase as [-> | [-> | ->]]; by repeat split.
Qed.

Lemma scan_int_terminates (auto : bool) (s : string) : scan_int auto s ≠ OutOfFuel.
Proof.
  unfold scan_int. destruct (skip_space s) as [|c r]; [done|].
  destruct (scan_sign _) as [neg s1].
  destruct (scan_magnitude auto s1) as [[m rest]|]; [|done].
  destruct auto; by destruct (_ : bool).
Qed.

Lemma run_directives_terminates (ds : list directive) :
  ∀ (s : string) (acc : list Z), run_directives ds s acc ≠ OutOfFuel.
Proof.
  induction ds as [|[|c|auto] ds IH]; intros s acc; simpl; try done.
  - destruct s as [|c' r]; [done|]. by destruct (Ascii.eqb c c').
  - pose proof (scan_int_terminates auto s) as Hs.
    destruct (scan_int auto s) as [[v rest| |]| |]; simpl; done.
Qed.

Lemma sscanf_terminates (str format : string) (param : list cell) :
  sscanf str format param ≠ OutOfFuel.
Proof.
  unfold sscanf.
  pose proof (run_directives_terminates (parse_format format) str []) as Hr.
  by destruct (run_directives _ _ _) as [[b vs]| |].
Qed.

(** C3. The rule for [2 <int> <int>] compares the result of an [sscanf]
    whose format has one conversion with 2, so it never fires: a line that
    begins with [2] is answered with the invalid-message text and nothing
    is enqueued (or a number on it does not fit an [int]); so it is for
    the line [2 5 6]. *)
Theorem two_byte_rule_never_fires :
  (∀ (rest : string) (st : state),
     parse_message (String "2" rest) st = Ok (0, printf invalid_text st) ∨
     parse_message (String "2" rest) st = Undefined) ∧
  parse_message (with_LF "2 5 6") initial_state
    = Ok (0, printf invalid_text initial_state) ∧
  parse_message (with_LF "2 5") initial_state
    = Ok (0, printf invalid_text initial_state).
Proof.
  split; [|split; reflexivity].
  intros rest st. unfold parse_message.
  rewrite !strncmp_head_mismatch by reflexivity.
  rewrite (sscanf_head_mismatch "2" rest (with_LF ". %x %x %x")) by reflexivity.
  cbn [mbind result_bind]. change (3 =? 0) with false. cbv iota.
  rewrite (sscanf_head_mismatch "2" rest (with_LF "CC %i %i")) by reflexivity.
  cbn [mbind result_bind]. change (2 =? 0) with false. cbv iota.
  rewrite (sscanf_head_mismatch "2" rest (with_LF "N %i %i")) by reflexivity.
  cbn [mbind result_bind]. cbv iota.
  rewrite (sscanf_head_mismatch "2" rest (with_LF "n %i %i")) by reflexivity.
  cbn [mbind result_bind]. cbv iota.
  destruct (sscanf (String "2" rest) (with_LF "2 %i") _) as [[n p]| |] eqn:E;
    cbn [mbind result_bind]; [|by right|].
  - apply sscanf_inv in E as (vs & Hlen & -> & Hn). simpl in Hlen.
    destruct (Z.eqb_spec 2 n) as [<-|_].
    { destruct Hn as [Hn|[Hn _]]; [lia|discriminate]. }
    rewrite (sscanf_head_mismatch "2" rest (with_LF "1 %i")) by reflexivity.
    cbn [mbind result_bind]. change (1 =? 0) with false. by left.
  - by apply sscanf_terminates in E.
Qed.

(** ** Decimal literals *)

Lemma decimal_digit_cases (d : Z) :
  is_decimal_digit d = true →
  d = 0 ∨ d = 1 ∨ d = 2 ∨ d = 3 ∨ d = 4 ∨ d = 5 ∨ d = 6 ∨ d = 7 ∨ d = 8 ∨ d = 9.
Proof. unfold is_decimal_digit. intros H. apply andb_prop in H as [H1 H2]. lia. Qed.

Lemma digit_val_digit_char (d : Z) :
  is_decimal_digit d = true → digit_val (digit_char d) = Some d.
Proof.
  intros H. apply decimal_digit_cases in H.
  repeat (destruct H as [->|H]; [reflexivity|]). by subst.
Qed.

Lemma isspace_digit_char (d : Z) :
  is_decimal_digit d = true → isspace (digit_char d) = false.
Proof.
  intros H. apply decimal_digit_cases in H.
  repeat (destruct H as [->|H]; [reflexivity|]). by subst.
Qed.

Lemma isspace_not_digit (c : ascii) : isspace c = true → digit_val c = None.
Proof. destruct c as [[] [] [] [] [] [] [] []]; by vm_compute. Qed.

Lemma scan_digits_ends (base : Z) (rest : string) (acc : Z) :
  ends_number rest = true → scan_digits base rest acc = (acc, rest).
Proof.
  destruct rest as [|c r]; [done|]. simpl. intros H.
  by rewrite (isspace_not_digit c H).
Qed.

Lemma scan_digits_decimal (ds : list Z) :
  ∀ (acc : Z) (rest : string),
    forallb is_decimal_digit ds = true → ends_number rest = true →
    scan_digits 10 (digits_string ds ++ rest) acc
      = (foldl (fun a d => a * 10 + d) acc ds, rest).
Proof.
  induction ds as [|d ds IH]; intros acc rest Hd Hr; simpl.
  - by apply scan_digits_ends.
  - simpl in Hd. apply andb_prop in Hd as [Hd Hds].
    rewrite (digit_val_digit_char d Hd).
    replace (d <? 10) with true
      by (symmetry; apply Z.ltb_lt; unfold is_decimal_digit in Hd; lia).
    by apply IH.
Qed.

Lemma strip_0x_zero (rest : string) :
  ends_number rest = true → strip_0x (String "0" rest) = None.
Proof.
  destruct rest as [|c r]; [done|].
  destruct c as [[] [] [] [] [] [] [] []]; by vm_compute.
Qed.

Lemma scan_magnitude_decimal (ds : list Z) (rest : string) :
  decimal_digits ds = true → ends_number rest = true →
  scan_magnitude true (digits_string ds ++ rest) = Some (digits_value ds, rest).
Proof.
  unfold decimal_digits. intros Hd Hr. apply andb_prop in Hd as [Hall Hlead].
  destruct ds as [|d ds]; [discriminate|].
  simpl in Hall. apply andb_prop in Hall as [Hd Hds].
  destruct (Z.eq_dec d 0) as [->|Hnz].
  - destruct ds as [|d' ds]; [|discriminate]. simpl.
    unfold scan_magnitude. rewrite strip_0x_zero by done.
    unfold scan_body. simpl. rewrite scan_digits_ends by done. reflexivity.
  - assert (scan_magnitude true (digits_string (d :: ds) ++ rest)
            = Some (scan_digits 10 (digits_string (d :: ds) ++ rest) 0)) as ->.
    { apply decimal_digit_cases in Hd.
      destruct Hd as [->|Hd]; [done|].
      repeat (destruct Hd as [->|Hd]; [reflexivity|]). by subst. }
    rewrite scan_digits_decimal; [done| |done].
    simpl. by rewrite Hd.
Qed.

Lemma scan_int_literal (neg : bool) (ds : list Z) (rest : string) :
  decimal_digits ds = true → ends_number rest = true →
  int_range (literal_value neg ds) = true →
  scan_int true (literal neg ds ++ rest)
    = Ok (Converted (literal_value neg ds) rest).
Proof.
  intros Hd Hr Hv. pose proof (scan_magnitude_decimal ds rest Hd Hr) as Hm.
  unfold decimal_digits in Hd. apply andb_prop in Hd as [Hall Hlead].
  destruct ds as [|d ds]; [discriminate Hlead|].
  simpl in Hall. apply andb_prop in Hall as [Hd _].
  unfold scan_int, literal, literal_value, int_range in *. destruct neg.
  - change (skip_space (String "-" (digits_string (d :: ds)) ++ rest)%string)
      with (String "-" (digits_string (d :: ds) ++ rest)%string).
    cbv iota beta. unfold scan_sign. cbv iota beta.
    rewrite Hm. cbv iota beta. by rewrite Hv.
  - assert (skip_space (digits_string (d :: ds) ++ rest)
            = String (digit_char d) (digits_string ds ++ rest)) as ->.
    { simpl. by rewrite isspace_digit_char. }
    assert (scan_sign (String (digit_char d) (digits_string ds ++ rest))
            = (false, (digits_string (d :: ds) ++ rest)%string)) as ->.
    { apply decimal_digit_cases in Hd.
      repeat (destruct Hd as [->|Hd]; [reflexivity|]). by subst. }
    cbv iota beta. rewrite Hm. cbv iota beta. by rewrite Hv.
Qed.

Lemma skip_space_idem (s : string) : skip_space (skip_space s) = skip_space s.
Proof.
  induction s as [|c r IH]; [done|]. simpl.
  destruct (isspace c) eqn:E; [done|]. simpl. by rewrite E.
Qed.

Lemma scan_int_skip_space (auto : bool) (s : string) :
  scan_int auto (skip_space s) = scan_int auto s.
Proof. unfold scan_int. by rewrite skip_space_idem. Qed.

(** The [CC] format on a line that has two numbers behind [CC]: both are
    converted, whatever follows the second. *)
Lemma sscanf_CC (body : string) (a b : Z) (r1 r2 : string) (param : list cell) :
  scan_int true body = Ok (Converted a r1) →
  scan_int true r1 = Ok (Converted b r2) →
  sscanf ("CC" ++ body) (with_LF "CC %i %i") param
    = Ok (2, list_inserts 0 [Some a; Some b] param).
Proof.
  intros H1 H2. unfold sscanf.
  change (parse_format (with_LF "CC %i %i"))
    with [DLit "C"; DLit "C"; DWhite; DConv true; DWhite; DConv true; DWhite].
  cbn [run_directives append Ascii.eqb Bool.eqb].
  rewrite scan_int_skip_space, H1. cbn [mbind result_bind run_directives].
  rewrite scan_int_skip_space, H2. reflexivity.
Qed.

(** C5. A line [CC <int> <int>], the numbers decimal and within [int],
    hands [queue_event] the event of size 3 with bytes 0xB0, the first
    number masked with 0x7F and the second masked with 0x7F (and returns
    0); what follows the second number does not matter. *)
Theorem parse_control_change (n1 n2 : bool) (d1 d2 : list Z) (tail : string)
    (st : state) :
  decimal_digits d1 = true → decimal_digits d2 = true →
  int_range (literal_value n1 d1) = true →
  int_range (literal_value n2 d2) = true →
  ends_number tail = true →
  parse_message ("CC " ++ literal n1 d1 ++ " " ++ literal n2 d2 ++ tail) st
    = (st' ← queue_event
              (mk_event (Some 0) (Some 3)
                 (Some 176 :: Some (Z.land (literal_value n1 d1) 127)
                    :: Some (Z.land (literal_value n2 d2) 127)
                    :: replicate 13 None)) st;
       Ok (0, st')).
Proof.
  intros Hd1 Hd2 Hv1 Hv2 Ht.
  set (body := (" " ++ literal n1 d1 ++ " " ++ literal n2 d2 ++ tail)%string).
  change ("CC " ++ literal n1 d1 ++ " " ++ literal n2 d2 ++ tail)%string
    with (String "C" (String "C" body)).
  unfold parse_message.
  rewrite !strncmp_head_mismatch by reflexivity.
  rewrite (sscanf_head_mismatch "C" _ (with_LF ". %x %x %x")) by reflexivity.
  cbn [mbind result_bind]. change (3 =? 0) with false. cbv iota.
  change (String "C" (String "C" body)) with ("CC" ++ body)%string.
  rewrite (sscanf_CC body (literal_value n1 d1) (literal_value n2 d2)
             (" " ++ literal n2 d2 ++ tail) tail).
  - reflexivity.
  - subst body. rewrite <- scan_int_skip_space.
    change (skip_space (" " ++ literal n1 d1 ++ " " ++ literal n2 d2 ++ tail))
      with (skip_space (literal n1 d1 ++ " " ++ literal n2 d2 ++ tail)).
    rewrite scan_int_skip_space. by apply scan_int_literal.
  - rewrite <- scan_int_skip_space.
    change (skip_space (" " ++ literal n2 d2 ++ tail))
      with (skip_space (literal n2 d2 ++ tail)).
    rewrite scan_int_skip_space. by apply scan_int_literal.
Qed.

(** ** The theorems at concrete inputs *)

Lemma fifo_round_trip_witness :
  ∃ st1 st2,
    queue_events [three_bytes 144 60 100; one_byte 254; three_bytes 128 60 0]
      wrapping_state = Ok st1 ∧
    queued st1 = [three_bytes 144 60 100; one_byte 254; three_bytes 128 60 0] ∧
    process 256 64 st1 = Ok (0, st2) ∧
    port_buffer st2
      = wire <$> [three_bytes 144 60 100; one_byte 254; three_bytes 128 60 0] ∧
    queue_empty st2 ∧ queued st2 = [].
Proof.
  apply (fifo_round_trip
           [three_bytes 144 60 100; one_byte 254; three_bytes 128 60 0]
           wrapping_state 256 64).
  - repeat split; simpl; lia.
  - reflexivity.
  - simpl; lia.
  - reflexivity.
  - simpl; lia.
Defined.

Lemma queue_event_full_or_store_witness :
  queue_event (one_byte 254) full_state = Ok full_state ∧
  ∃ st', queue_event (one_byte 254) wrapping_state = Ok st' ∧
     event_queue st' = <[255%nat := one_byte 254]> (event_queue wrapping_state) ∧
     event_queue st' !! 255%nat = Some (one_byte 254) ∧
     queued_events_start st' = 0 ∧
     queued_events_end st' = 255 ∧
     client_state st' = Run ∧
     port_buffer st' = [] ∧
     stdout st' = [].
Proof.
  split.
  - refine (proj1 (queue_event_full_or_store (one_byte 254) full_state _) _).
    + repeat split; simpl; lia.
    + reflexivity.
  - refine (proj2 (queue_event_full_or_store (one_byte 254) wrapping_state _) _).
    + repeat split; simpl; lia.
    + intros H. vm_compute in H. discriminate H.
Defined.

Lemma process_empty_queue_silent_witness :
  process 1 64 stale_state = Ok (0, set_port_buffer [] stale_state).
Proof. apply (process_empty_queue_silent stale_state 0 64). reflexivity. Defined.

Lemma parsed_event_time_zero_witness :
  ∃ ev, event_queue (one_queued (three_bytes 144 60 100)) !! Z.to_nat 0 = Some ev ∧
        queued (one_queued (three_bytes 144 60 100)) = queued initial_state ++ [ev] ∧
        time ev = Some 0.
Proof.
  apply (parsed_event_time_zero (with_LF "N 60 100") initial_state 0
           (one_queued (three_bytes 144 60 100))).
  - repeat split; simpl; lia.
  - reflexivity.
  - simpl. lia.
Defined.

Lemma parsed_event_size_bounded_witness :
  ∃ ev n, event_queue (one_queued (one_byte 254)) !! Z.to_nat 0 = Some ev ∧
          queued (one_queued (one_byte 254)) = queued initial_state ++ [ev] ∧
          size ev = Some n ∧ (n = 1 ∨ n = 2 ∨ n = 3) ∧
          length (buffer ev) = 16%nat ∧
          n ≤ Z.of_nat (length (buffer ev)) ∧
          Forall is_Some (take (Z.to_nat n) (buffer ev)) ∧
          valid_event ev = true.
Proof.
  apply (parsed_event_size_bounded (with_LF "1 254") initial_state 0
           (one_queued (one_byte 254))).
  - repeat split; simpl; lia.
  - reflexivity.
  - simpl. lia.
Defined.

Lemma diagnostics_leave_state_witness :
  parse (with_LF "help me") = Ok OHelp ∧
  (parse_message (with_LF "help me") initial_state
     = Ok (0, printf help_text initial_state) ∧
   same_but_stdout initial_state (printf help_text initial_state)) ∧
  (parse_message (with_LF "garbage text") initial_state
     = Ok (0, printf invalid_text initial_state) ∧
   same_but_stdout initial_state (printf invalid_text initial_state)).
Proof.
  split; [|split].
  - refine (proj1 (diagnostics_leave_state (with_LF "help me") initial_state)
              (with_LF " me") _).
    reflexivity.
  - refine (proj2 (diagnostics_leave_state (with_LF "help me") initial_state)
              OHelp _ _).
    + reflexivity.
    + left. reflexivity.
  - refine (proj2 (diagnostics_leave_state (with_LF "garbage text") initial_state)
              OInvalid _ _).
    + reflexivity.
    + right. left. reflexivity.
Defined.

Lemma parse_control_change_witness :
  parse_message "CC 1 2" initial_state
    = (st' ← queue_event (three_bytes 176 1 2) initial_state; Ok (0, st')).
Proof.
  apply (parse_control_change false false [1] [2] "" initial_state); reflexivity.
Defined.

(** End to end: the line [CC 1 2] typed at the initial state, then one
    cycle, puts the three bytes on the port at frame 0 and empties the
    queue. *)
Lemma control_change_reaches_port :
  (r ← parse_message (with_LF "CC 1 2") initial_state;
   r' ← process 256 64 r.2;
   Ok (port_buffer r'.2, queued_events_start r'.2, queued_events_end r'.2))
  = Ok ([(0, [Some 176; Some 1; Some 2])], 1, 1).
Proof. vm_compute. reflexivity. Qed.

(** * Further properties *)

(** ** The other rules of the parser *)

Lemma scan_int_spaced_literal (neg : bool) (ds : list Z) (rest : string) :
  decimal_digits ds = true → ends_number rest = true →
  int_range (literal_value neg ds) = true →
  scan_int true (String " " (literal neg ds ++ rest))
    = Ok (Converted (literal_value neg ds) rest).
Proof.
  intros Hd Hr Hv. rewrite <- scan_int_skip_space.
  change (skip_space (String " " (literal neg ds ++ rest)))
    with (skip_space (literal neg ds ++ rest)).
  rewrite scan_int_skip_space. by apply scan_int_literal.
Qed.

(** A format made of one ordinary character and two [%i] on a line that
    opens with that character and has two numbers behind it. *)
Lemma sscanf_letter (c : ascii) (format body : string) (a b : Z)
    (r1 r2 : string) (param : list cell) :
  parse_format format = [DLit c; DWhite; DConv true; DWhite; DConv true; DWhite] →
  scan_int true body = Ok (Converted a r1) →
  scan_int true r1 = Ok (Converted b r2) →
  sscanf (String c body) format param
    = Ok (2, list_inserts 0 [Some a; Some b] param).
Proof.
  intros Hf H1 H2. unfold sscanf. rewrite Hf.
  cbn [run_directives]. rewrite Ascii.eqb_refl.
  rewrite scan_int_skip_space, H1. cbn [mbind result_bind run_directives].
  rewrite scan_int_skip_space, H2. reflexivity.
Qed.

(** The rules [N] and [n] on a line that has two numbers behind the
    letter. *)
Lemma parse_N_body (body : string) (a b : Z) (r1 r2 : string) (st : state) :
  scan_int true body = Ok (Converted a r1) →
  scan_int true r1 = Ok (Converted b r2) →
  parse_message (String "N" body) st
    = (st' ← queue_event (three_bytes 144 (Z.land a 127) (Z.land b 127)) st;
       Ok (0, st')).
Proof.
  intros H1 H2. unfold parse_message.
  rewrite !strncmp_head_mismatch by reflexivity.
  rewrite (sscanf_head_mismatch "N" _ (with_LF ". %x %x %x")) by reflexivity.
  cbn [mbind result_bind]. change (3 =? 0) with false. cbv iota.
  rewrite (sscanf_head_mismatch "N" _ (with_LF "CC %i %i")) by reflexivity.
  cbn [mbind result_bind]. change (2 =? 0) with false. cbv iota.
  rewrite (sscanf_letter "N" (with_LF "N %i %i") body a b r1 r2)
    by (done || reflexivity).
  reflexivity.
Qed.

Lemma parse_n_body (body : string) (a b : Z) (r1 r2 : string) (st : state) :
  scan_int true body = Ok (Converted a r1) →
  scan_int true r1 = Ok (Converted b r2) →
  parse_message (String "n" body) st
    = (st' ← queue_event (three_bytes 128 (Z.land a 127) (Z.land b 127)) st;
       Ok (0, st')).
Proof.
  intros H1 H2. unfold parse_message.
  rewrite !strncmp_head_mismatch by reflexivity.
  rewrite (sscanf_head_mismatch "n" _ (with_LF ". %x %x %x")) by reflexivity.
  cbn [mbind result_bind]. change (3 =? 0) with false. cbv iota.
  rewrite (sscanf_head_mismatch "n" _ (with_LF "CC %i %i")) by reflexivity.
  cbn [mbind result_bind]. change (2 =? 0) with false. cbv iota.
  rewrite (sscanf_head_mismatch "n" _ (with_LF "N %i %i")) by reflexivity.
  cbn [mbind result_bind]. cbv iota.
  rewrite (sscanf_letter "n" (with_LF "n %i %i") body a b r1 r2)
    by (done || reflexivity).
  reflexivity.
Qed.

(** X1. A line [N <int> <int>], the numbers decimal and within [int], hands
    [queue_event] the note-on event: size 3, bytes 0x90, the first number
    masked with 0x7F, the second masked with 0x7F. *)
Theorem parse_note_on (n1 n2 : bool) (d1 d2 : list Z) (tail : string)
    (st : state) :
  decimal_digits d1 = true → decimal_digits d2 = true →
  int_range (literal_value n1 d1) = true →
  int_range (literal_value n2 d2) = true →
  ends_number tail = true →
  parse_message ("N " ++ literal n1 d1 ++ " " ++ literal n2 d2 ++ tail) st
    = (st' ← queue_event
              (mk_event (Some 0) (Some 3)
                 (Some 144 :: Some (Z.land (literal_value n1 d1) 127)
                    :: Some (Z.land (literal_value n2 d2) 127)
                    :: replicate 13 None)) st;
       Ok (0, st')).
Proof.
  intros Hd1 Hd2 Hv1 Hv2 Ht.
  apply (parse_N_body _ _ _ (String " " (literal n2 d2 ++ tail)) tail).
  - by apply scan_int_spaced_literal.
  - by apply scan_int_spaced_literal.
Qed.

(** X2. A line [n <int> <int>], the numbers decimal and within [int], hands
    [queue_event] the note-off event: size 3, bytes 0x80, the first number
    masked with 0x7F, the second masked with 0x7F. *)
Theorem parse_note_off (n1 n2 : bool) (d1 d2 : list Z) (tail : string)
    (st : state) :
  decimal_digits d1 = true → decimal_digits d2 = true →
  int_range (literal_value n1 d1) = true →
  int_range (literal_value n2 d2) = true →
  ends_number tail = true →
  parse_message ("n " ++ literal n1 d1 ++ " " ++ literal n2 d2 ++ tail) st
    = (st' ← queue_event
              (mk_event (Some 0) (Some 3)
                 (Some 128 :: Some (Z.land (literal_value n1 d1) 127)
                    :: Some (Z.land (literal_value n2 d2) 127)
                    :: replicate 13 None)) st;
       Ok (0, st')).
Proof.
  intros Hd1 Hd2 Hv1 Hv2 Ht.
  apply (parse_n_body _ _ _ (String " " (literal n2 d2 ++ tail)) tail).
  - by apply scan_int_spaced_literal.
  - by apply scan_int_spaced_literal.
Qed.

Lemma parse_1_body (body : string) (a : Z) (r1 : string) (st : state) :
  scan_int true body = Ok (Converted a r1) →
  parse_message (String "1" body) st
    = (st' ← queue_event (one_byte (Z.land a 255)) st; Ok (0, st')).
Proof.
  intros H1. unfold parse_message.
  rewrite !strncmp_head_mismatch by reflexivity.
  rewrite (sscanf_head_mismatch "1" _ (with_LF ". %x %x %x")) by reflexivity.
  cbn [mbind result_bind]. change (3 =? 0) with false. cbv iota.
  rewrite (sscanf_head_mismatch "1" _ (with_LF "CC %i %i")) by reflexivity.
  cbn [mbind result_bind]. change (2 =? 0) with false. cbv iota.
  rewrite (sscanf_head_mismatch "1" _ (with_LF "N %i %i")) by reflexivity.
  cbn [mbind result_bind]. cbv iota.
  rewrite (sscanf_head_mismatch "1" _ (with_LF "n %i %i")) by reflexivity.
  cbn [mbind result_bind]. cbv iota.
  rewrite (sscanf_head_mismatch "1" _ (with_LF "2 %i")) by reflexivity.
  cbn [mbind result_bind]. cbv iota.
  unfold sscanf.
  change (parse_format (with_LF "1 %i")) with [DLit "1"; DWhite; DConv true; DWhite].
  cbn [run_directives Ascii.eqb Bool.eqb].
  rewrite scan_int_skip_space, H1. reflexivity.
Qed.

(** X3. A line [1 <int>], the number decimal and within [int], hands
    [queue_event] the event of size 1 whose byte is the number masked with
    0xFF. *)
Theorem parse_one_byte (neg : bool) (ds : list Z) (tail : string) (st : state) :
  decimal_digits ds = true →
  int_range (literal_value neg ds) = true →
  ends_number tail = true →
  parse_message ("1 " ++ literal neg ds ++ tail) st
    = (st' ← queue_event
              (mk_event (Some 0) (Some 1)
                 (Some (Z.land (literal_value neg ds) 255) :: replicate 15 None)) st;
       Ok (0, st')).
Proof.
  intros Hd Hv Ht. apply (parse_1_body _ _ tail).
  by apply scan_int_spaced_literal.
Qed.

(** ** A number missing *)

Lemma scan_int_blank (auto : bool) (s : string) :
  skip_space s = EmptyString → scan_int auto s = Ok InputFailure.
Proof. unfold scan_int. by intros ->. Qed.

Lemma blank_ends_number (s : string) :
  skip_space s = EmptyString → ends_number s = true.
Proof.
  destruct s as [|c r]; [done|]. simpl. by destruct (isspace c).
Qed.

(** A format of one ordinary character and two [%i] converts one value when
    only white space follows the first number. *)
Lemma sscanf_letter_one (c : ascii) (format body : string) (a : Z)
    (r1 : string) (param : list cell) :
  parse_format format = [DLit c; DWhite; DConv true; DWhite; DConv true; DWhite] →
  scan_int true body = Ok (Converted a r1) →
  skip_space r1 = EmptyString →
  sscanf (String c body) format param = Ok (1, list_inserts 0 [Some a] param).
Proof.
  intros Hf H1 H2. unfold sscanf. rewrite Hf.
  cbn [run_directives]. rewrite Ascii.eqb_refl.
  rewrite scan_int_skip_space, H1. cbn [mbind result_bind run_directives].
  rewrite scan_int_skip_space, (scan_int_blank true r1 H2). reflexivity.
Qed.

Lemma sscanf_CC_one (body : string) (a : Z) (r1 : string) (param : list cell) :
  scan_int true body = Ok (Converted a r1) →
  skip_space r1 = EmptyString →
  sscanf (String "C" (String "C" body)) (with_LF "CC %i %i") param
    = Ok (1, list_inserts 0 [Some a] param).
Proof.
  intros H1 H2. unfold sscanf.
  change (parse_format (with_LF "CC %i %i"))
    with [DLit "C"; DLit "C"; DWhite; DConv true; DWhite; DConv true; DWhite].
  cbn [run_directives Ascii.eqb Bool.eqb].
  rewrite scan_int_skip_space, H1. cbn [mbind result_bind run_directives].
  rewrite scan_int_skip_space, (scan_int_blank true r1 H2). reflexivity.
Qed.

(** X4. A line [CC <int>], [N <int>] or [n <int>] with nothing but white
    space behind the one number matches no rule: the invalid-message text
    is printed, 0 is returned, and nothing is enqueued. *)
Theorem second_number_missing (neg : bool) (ds : list Z) (tail : string)
    (st : state) :
  decimal_digits ds = true →
  int_range (literal_value neg ds) = true →
  skip_space tail = EmptyString →
  parse_message ("CC " ++ literal neg ds ++ tail) st
    = Ok (0, printf invalid_text st) ∧
  parse_message ("N " ++ literal neg ds ++ tail) st
    = Ok (0, printf invalid_text st) ∧
  parse_message ("n " ++ literal neg ds ++ tail) st
    = Ok (0, printf invalid_text st).
Proof.
  intros Hd Hv Hs. pose proof (blank_ends_number tail Hs) as Ht.
  pose proof (scan_int_spaced_literal neg ds tail Hd Ht Hv) as H1.
  repeat split.
  - change ("CC " ++ literal neg ds ++ tail)%string
      with (String "C" (String "C" (String " " (literal neg ds ++ tail)))).
    unfold parse_message.
    rewrite !strncmp_head_mismatch by reflexivity.
    rewrite (sscanf_head_mismatch "C" _ (with_LF ". %x %x %x")) by reflexivity.
    cbn [mbind result_bind]. change (3 =? 0) with false. cbv iota.
    rewrite (sscanf_CC_one _ _ tail) by done.
    cbn [mbind result_bind]. change (2 =? 1) with false. cbv iota.
    rewrite (sscanf_head_mismatch "C" _ (with_LF "N %i %i")) by reflexivity.
    cbn [mbind result_bind]. change (2 =? 0) with false. cbv iota.
    rewrite (sscanf_head_mismatch "C" _ (with_LF "n %i %i")) by reflexivity.
    cbn [mbind result_bind]. cbv iota.
    rewrite (sscanf_head_mismatch "C" _ (with_LF "2 %i")) by reflexivity.
    cbn [mbind result_bind]. cbv iota.
    rewrite (sscanf_head_mismatch "C" _ (with_LF "1 %i")) by reflexivity.
    reflexivity.
  - change ("N " ++ literal neg ds ++ tail)%string
      with (String "N" (String " " (literal neg ds ++ tail))).
    unfold parse_message.
    rewrite !strncmp_head_mismatch by reflexivity.
    rewrite (sscanf_head_mismatch "N" _ (with_LF ". %x %x %x")) by reflexivity.
    cbn [mbind result_bind]. change (3 =? 0) with false. cbv iota.
    rewrite (sscanf_head_mismatch "N" _ (with_LF "CC %i %i")) by reflexivity.
    cbn [mbind result_bind]. change (2 =? 0) with false. cbv iota.
    rewrite (sscanf_letter_one "N" (with_LF "N %i %i") _ _ tail)
      by (done || reflexivity).
    cbn [mbind result_bind]. change (2 =? 1) with false. cbv iota.
    rewrite (sscanf_head_mismatch "N" _ (with_LF "n %i %i")) by reflexivity.
    cbn [mbind result_bind]. change (2 =? 0) with false. cbv iota.
    rewrite (sscanf_head_mismatch "N" _ (with_LF "2 %i")) by reflexivity.
    cbn [mbind result_bind]. cbv iota.
    rewrite (sscanf_head_mismatch "N" _ (with_LF "1 %i")) by reflexivity.
    reflexivity.
  - change ("n " ++ literal neg ds ++ tail)%string
      with (String "n" (String " " (literal neg ds ++ tail))).
    unfold parse_message.
    rewrite !strncmp_head_mismatch by reflexivity.
    rewrite (sscanf_head_mismatch "n" _ (with_LF ". %x %x %x")) by reflexivity.
    cbn [mbind result_bind]. change (3 =? 0) with false. cbv iota.
    rewrite (sscanf_head_mismatch "n" _ (with_LF "CC %i %i")) by reflexivity.
    cbn [mbind result_bind]. change (2 =? 0) with false. cbv iota.
    rewrite (sscanf_head_mismatch "n" _ (with_LF "N %i %i")) by reflexivity.
    cbn [mbind result_bind]. cbv iota.
    rewrite (sscanf_letter_one "n" (with_LF "n %i %i") _ _ tail)
      by (done || reflexivity).
    cbn [mbind result_bind]. change (2 =? 1) with false. cbv iota.
    rewrite (sscanf_head_mismatch "n" _ (with_LF "2 %i")) by reflexivity.
    cbn [mbind result_bind]. change (2 =? 0) with false. cbv iota.
    rewrite (sscanf_head_mismatch "n" _ (with_LF "1 %i")) by reflexivity.
    reflexivity.
Qed.

(** ** The hexadecimal rule *)

Lemma hex_digit_cases (d : Z) :
  is_hex_digit d = true →
  d = 0 ∨ d = 1 ∨ d = 2 ∨ d = 3 ∨ d = 4 ∨ d = 5 ∨ d = 6 ∨ d = 7 ∨
  d = 8 ∨ d = 9 ∨ d = 10 ∨ d = 11 ∨ d = 12 ∨ d = 13 ∨ d = 14 ∨ d = 15.
Proof. unfold is_hex_digit. intros H. apply andb_prop in H as [H1 H2]. lia. Qed.

Ltac hex_cases H :=
  apply hex_digit_cases in H;
  repeat (destruct H as [->|H]; [by destruct_all bool|]);
  subst; by destruct_all bool.

Lemma digit_val_hex_char (upper : bool) (d : Z) :
  is_hex_digit d = true → digit_val (hex_char upper d) = Some d.
Proof. intros H. hex_cases H. Qed.

Lemma isspace_hex_char (upper : bool) (d : Z) :
  is_hex_digit d = true → isspace (hex_char upper d) = false.
Proof. intros H. hex_cases H. Qed.

Lemma scan_sign_hex_char (upper : bool) (d : Z) (r : string) :
  is_hex_digit d = true →
  scan_sign (String (hex_char upper d) r) = (false, String (hex_char upper d) r).
Proof. intros H. hex_cases H. Qed.

(** No hexadecimal digit is the [x] of a [0x]. *)
Lemma strip_0x_hex_char (upper : bool) (c : ascii) (d : Z) (r : string) :
  is_hex_digit d = true → strip_0x (String c (String (hex_char upper d) r)) = None.
Proof.
  intros H. destruct (Ascii.eqb_spec c "0") as [->|Hc].
  - hex_cases H.
  - unfold strip_0x. destruct c as [[] [] [] [] [] [] [] []]; try done.
Qed.

Lemma strip_0x_hex_string (upper : bool) (ds : list Z) (rest : string) :
  forallb is_hex_digit ds = true → ends_number rest = true →
  strip_0x (hex_string upper ds ++ rest) = None.
Proof.
  intros Hall Hr. destruct ds as [|d [|d' ds]]; simpl in *.
  - destruct rest as [|c [|c' r]]; try done;
      destruct c as [[] [] [] [] [] [] [] []]; try done; by vm_compute in Hr.
  - apply andb_prop in Hall as [Hd _].
    destruct (Ascii.eqb_spec (hex_char upper d) "0") as [->|Hc].
    + by apply strip_0x_zero.
    + unfold strip_0x.
      destruct (hex_char upper d) as [[] [] [] [] [] [] [] []]; try done.
  - apply andb_prop in Hall as [_ Hall]. apply andb_prop in Hall as [Hd' _].
    by apply strip_0x_hex_char.
Qed.

Lemma scan_digits_hex (upper : bool) (ds : list Z) :
  ∀ (acc : Z) (rest : string),
    forallb is_hex_digit ds = true → ends_number rest = true →
    scan_digits 16 (hex_string upper ds ++ rest) acc
      = (foldl (fun a d => a * 16 + d) acc ds, rest).
Proof.
  induction ds as [|d ds IH]; intros acc rest Hd Hr; simpl.
  - by apply scan_digits_ends.
  - simpl in Hd. apply andb_prop in Hd as [Hd Hds].
    rewrite (digit_val_hex_char upper d Hd).
    replace (d <? 16) with true
      by (symmetry; apply Z.ltb_lt; unfold is_hex_digit in Hd; lia).
    by apply IH.
Qed.

(** Masking with 0xFF or 0x7F does not see that the [unsigned int] was read
    back as an [int]. *)
Lemma land_to_int32 (v : Z) (k : Z) :
  0 ≤ v < 2 ^ 32 → 0 ≤ k ≤ 31 →
  Z.land (to_int32 (v mod 2 ^ 32)) (Z.ones k) = Z.land v (Z.ones k).
Proof.
  intros Hv Hk. rewrite !Z.land_ones by lia. unfold to_int32.
  rewrite (Z.mod_small v) by lia.
  assert (2 ^ 32 = 2 ^ k * 2 ^ (32 - k)) as E.
  { rewrite <- Z.pow_add_r by lia. f_equal. lia. }
  destruct (Z_lt_ge_dec v (2 ^ 31)).
  - rewrite (Z.mod_small (v + 2 ^ 31)) by lia. f_equal. lia.
  - replace ((v + 2 ^ 31) mod 2 ^ 32) with (v - 2 ^ 31).
    + replace (v - 2 ^ 31 - 2 ^ 31) with (v + (- 2 ^ (32 - k)) * 2 ^ k)
        by (rewrite Z.mul_opp_l, (Z.mul_comm (2 ^ (32 - k))), <- E; lia).
      apply Z.mod_add. apply Z.pow_nonzero; lia.
    + apply Z.mod_unique with 1; lia.
Qed.

Lemma scan_int_hex (upper : bool) (ds : list Z) (rest : string) :
  hex_digits ds = true → ends_number rest = true →
  scan_int false (hex_string upper ds ++ rest)
    = Ok (Converted (to_int32 (hex_value ds mod 2 ^ 32)) rest).
Proof.
  unfold hex_digits. intros Hd Hr.
  apply andb_prop in Hd as [Hd Hv]. apply andb_prop in Hd as [Hall Hne].
  destruct ds as [|d ds]; [discriminate|].
  pose proof (strip_0x_hex_string upper (d :: ds) rest Hall Hr) as Hx.
  pose proof (scan_digits_hex upper (d :: ds) 0 rest Hall Hr) as Hs.
  simpl in Hall. apply andb_prop in Hall as [Hd _].
  unfold scan_int.
  assert (skip_space (hex_string upper (d :: ds) ++ rest)
          = String (hex_char upper d) (hex_string upper ds ++ rest)) as ->.
  { simpl. by rewrite isspace_hex_char. }
  rewrite scan_sign_hex_char by done.
  change (String (hex_char upper d) (hex_string upper ds ++ rest))
    with (hex_string upper (d :: ds) ++ rest)%string.
  unfold scan_magnitude. rewrite Hx.
  unfold scan_body.
  change (hex_string upper (d :: ds) ++ rest)%string
    with (String (hex_char upper d) (hex_string upper ds ++ rest)) at 1.
  unfold is_digit. rewrite digit_val_hex_char by done.
  replace (d <? 16) with true
    by (symmetry; apply Z.ltb_lt; unfold is_hex_digit in Hd; lia).
  rewrite Hs. fold (hex_value (d :: ds)). by rewrite Hv.
Qed.

Lemma foldl_hex_nonneg (ds : list Z) :
  ∀ acc, 0 ≤ acc → forallb is_hex_digit ds = true →
         0 ≤ foldl (fun a d => a * 16 + d) acc ds.
Proof.
  induction ds as [|d ds IH]; intros acc Hacc Hd; simpl in *; [done|].
  apply andb_prop in Hd as [Hd Hds]. apply IH; [|done].
  unfold is_hex_digit in Hd. lia.
Qed.

Lemma hex_digits_range (ds : list Z) :
  hex_digits ds = true → 0 ≤ hex_value ds < 2 ^ 32.
Proof.
  unfold hex_digits. intros H.
  apply andb_prop in H as [H Hv]. apply andb_prop in H as [Hall _].
  split; [by apply foldl_hex_nonneg|]. by apply Z.ltb_lt.
Qed.

Lemma scan_int_spaced_hex (upper : bool) (ds : list Z) (rest : string) :
  hex_digits ds = true → ends_number rest = true →
  scan_int false (String " " (hex_string upper ds ++ rest))
    = Ok (Converted (to_int32 (hex_value ds mod 2 ^ 32)) rest).
Proof.
  intros Hd Hr. rewrite <- scan_int_skip_space.
  change (skip_space (String " " (hex_string upper ds ++ rest)))
    with (skip_space (hex_string upper ds ++ rest)).
  rewrite scan_int_skip_space. by apply scan_int_hex.
Qed.

Lemma sscanf_dot (body : string) (a b c : Z) (r1 r2 r3 : string)
    (param : list cell) :
  scan_int false body = Ok (Converted a r1) →
  scan_int false r1 = Ok (Converted b r2) →
  scan_int false r2 = Ok (Converted c r3) →
  sscanf (String "." body) (with_LF ". %x %x %x") param
    = Ok (3, list_inserts 0 [Some a; Some b; Some c] param).
Proof.
  intros H1 H2 H3. unfold sscanf.
  change (parse_format (with_LF ". %x %x %x"))
    with [DLit "."; DWhite; DConv false; DWhite; DConv false; DWhite;
          DConv false; DWhite].
  cbn [run_directives Ascii.eqb Bool.eqb].
  rewrite scan_int_skip_space, H1. cbn [mbind result_bind run_directives].
  rewrite scan_int_skip_space, H2. cbn [mbind result_bind run_directives].
  rewrite scan_int_skip_space, H3. reflexivity.
Qed.

Lemma parse_dot_body (body : string) (a b c : Z) (r1 r2 r3 : string) (st : state) :
  scan_int false body = Ok (Converted a r1) →
  scan_int false r1 = Ok (Converted b r2) →
  scan_int false r2 = Ok (Converted c r3) →
  parse_message (String "." body) st
    = (st' ← queue_event
              (three_bytes (Z.land a 255) (Z.land b 127) (Z.land c 127)) st;
       Ok (0, st')).
Proof.
  intros H1 H2 H3. unfold parse_message.
  rewrite !strncmp_head_mismatch by reflexivity.
  rewrite (sscanf_dot body a b c r1 r2 r3) by done. reflexivity.
Qed.

(** X5. A line [. <hex> <hex> <hex>], each token hexadecimal digits of
    either case with a value below 2^32, hands [queue_event] the event of
    size 3 whose bytes are the first value masked with 0xFF and the second
    and third masked with 0x7F. *)
Theorem parse_raw_hex (u0 u1 u2 : bool) (d0 d1 d2 : list Z) (tail : string)
    (st : state) :
  hex_digits d0 = true → hex_digits d1 = true → hex_digits d2 = true →
  ends_number tail = true →
  parse_message (". " ++ hex_string u0 d0 ++ " " ++ hex_string u1 d1 ++ " "
                   ++ hex_string u2 d2 ++ tail) st
    = (st' ← queue_event
              (mk_event (Some 0) (Some 3)
                 (Some (Z.land (hex_value d0) 255)
                    :: Some (Z.land (hex_value d1) 127)
                    :: Some (Z.land (hex_value d2) 127)
                    :: replicate 13 None)) st;
       Ok (0, st')).
Proof.
  intros H0 H1 H2 Ht.
  etransitivity.
  { apply (parse_dot_body _
             (to_int32 (hex_value d0 mod 2 ^ 32))
             (to_int32 (hex_value d1 mod 2 ^ 32))
             (to_int32 (hex_value d2 mod 2 ^ 32))
             (String " " (hex_string u1 d1 ++ String " " (hex_string u2 d2 ++ tail)))
             (String " " (hex_string u2 d2 ++ tail)) tail);
      by apply scan_int_spaced_hex. }
  change 255 with (Z.ones 8). change 127 with (Z.ones 7).
  rewrite !land_to_int32 by (try apply hex_digits_range; done || lia).
  reflexivity.
Qed.

(** ** Keywords and return values *)

Lemma code_inj (c1 c2 : ascii) : code c1 = code c2 → c1 = c2.
Proof.
  unfold code. intros E.
  assert (N_of_ascii c1 = N_of_ascii c2) as E' by lia.
  apply (f_equal ascii_of_N) in E'. by rewrite !ascii_N_embedding in E'.
Qed.

(** [strncmp s p (strlen p)] is zero exactly when [s] begins with [p]. *)
Lemma strncmp_prefix (p : string) :
  ∀ s : string,
    no_nul p = true →
    (strncmp s p (String.length p) = 0 ↔ ∃ rest, s = (p ++ rest)%string).
Proof.
  induction p as [|c p IH]; intros s Hp; simpl.
  - split; [intros _; by exists s|done].
  - simpl in Hp. apply andb_prop in Hp as [Hc Hp].
    apply negb_true_iff, Z.eqb_neq in Hc.
    destruct s as [|c1 r1].
    + split; [lia|]. by intros [rest ?].
    + destruct (Ascii.eqb_spec c1 c) as [->|Hne].
      * rewrite (IH r1 Hp). split; intros [rest E]; exists rest.
        -- by rewrite E.
        -- by inversion E.
      * split.
        -- intros E. destruct Hne. apply code_inj. lia.
        -- intros [rest E]. inversion E. contradiction.
Qed.

(** One [THREEBYTES] branch, and the one-byte branch, in a hypothesis. *)
Ltac enqueue_branch H Q :=
  unfold THREEBYTES in H; cbn in H;
  match type of H with
  | context [queue_event ?e ?s] =>
    destruct (queue_event e s) as [?s| |] eqn:Q; cbn in H; try discriminate H
  end;
  inversion H; subst; split; [done|]; right; eexists; split; [|exact Q].

(** Past the three keywords [parse_message] returns 0, and either prints
    the invalid-message text or hands [queue_event] one event. *)
Lemma parse_message_rules (msg : string) (st : state) (r : Z) (st' : state) :
  (strncmp msg "exit" 4 =? 0) = false →
  (strncmp msg "reconnect" 9 =? 0) = false →
  (strncmp msg "help" 4 =? 0) = false →
  parse_message msg st = Ok (r, st') →
  r = 0 ∧ (st' = printf invalid_text st ∨
           ∃ ev, parser_event ev ∧ queue_event ev st = Ok st').
Proof.
  unfold parse_message. intros -> -> -> H.
  scan_step H n1 p1 E1.
  pose proof (sscanf_length _ _ _ _ _ E1) as L1.
  destruct (Z.eqb_spec 3 n1) as [<-|_].
  { apply sscanf_three in E1 as (a & b & c & ->); [|done|simpl; lia].
    enqueue_branch H Q. left. by exists a, b, c. }
  scan_step H n2 p2 E2.
  pose proof (sscanf_length _ _ _ _ _ E2) as L2.
  destruct (Z.eqb_spec 2 n2) as [<-|_].
  { apply sscanf_two in E2 as (a & b & c & -> & _); [|simpl in *; congruence].
    enqueue_branch H Q. left. by exists 176, a, b. }
  scan_step H n3 p3 E3.
  pose proof (sscanf_length _ _ _ _ _ E3) as L3.
  destruct (Z.eqb_spec 2 n3) as [<-|_].
  { apply sscanf_two in E3 as (a & b & c & -> & _); [|simpl in *; congruence].
    enqueue_branch H Q. left. by exists 144, a, b. }
  scan_step H n4 p4 E4.
  pose proof (sscanf_length _ _ _ _ _ E4) as L4.
  destruct (Z.eqb_spec 2 n4) as [<-|_].
  { apply sscanf_two in E4 as (a & b & c & -> & _); [|simpl in *; congruence].
    enqueue_branch H Q. left. by exists 128, a, b. }
  scan_step H n5 p5 E5.
  pose proof (sscanf_length _ _ _ _ _ E5) as L5.
  destruct (Z.eqb_spec 2 n5) as [<-|_].
  { apply sscanf_two in E5 as (a & b & c & _ & Hc); [|simpl in *; congruence].
    simpl in Hc. lia. }
  scan_step H n6 p6 E6.
  destruct (Z.eqb_spec 1 n6) as [<-|_].
  { apply sscanf_one in E6 as (a & b & c & ->); [|simpl in *; congruence].
    enqueue_branch H Q. right. by exists a. }
  inversion H; subst. split; [done|]. by left.
Qed.

Lemma keyword_eqb (msg p : string) :
  no_nul p = true →
  (strncmp msg p (String.length p) =? 0) = false →
  ¬ ∃ rest, msg = (p ++ rest)%string.
Proof.
  intros Hp Hf Hex. apply (strncmp_prefix p msg Hp) in Hex.
  apply Z.eqb_neq in Hf. contradiction.
Qed.

(** X6. [parse_message] returns 1 exactly on the lines that begin with
    [reconnect], and then the state is untouched; on every other line it
    returns 0. *)
Theorem returns_one_iff_reconnect (msg : string) (st : state) (r : Z)
    (st' : state) :
  parse_message msg st = Ok (r, st') →
  (r = 1 ↔ ∃ rest, msg = ("reconnect" ++ rest)%string) ∧
  (r = 1 → st' = st) ∧
  (r = 0 ∨ r = 1).
Proof.
  intros H.
  destruct (strncmp msg "exit" 4 =? 0) eqn:Ee.
  { apply Z.eqb_eq, (strncmp_prefix "exit" msg eq_refl) in Ee as [rest ->].
    simpl in H. inversion H; subst. repeat split; try done; auto.
    by intros [rest' ?]. }
  destruct (strncmp msg "reconnect" 9 =? 0) eqn:Er.
  { unfold parse_message in H. rewrite Ee, Er in H. inversion H; subst.
    apply Z.eqb_eq, (strncmp_prefix "reconnect" msg eq_refl) in Er.
    repeat split; auto. }
  pose proof (keyword_eqb msg "reconnect" eq_refl Er) as Hn.
  assert (r = 0) as ->.
  { destruct (strncmp msg "help" 4 =? 0) eqn:Eh.
    - unfold parse_message in H. rewrite Ee, Er, Eh in H. by inversion H.
    - by destruct (parse_message_rules msg st r st' Ee Er Eh H). }
  repeat split; try done; auto.
Qed.

(** X7. Only a line that begins with [exit] changes [client_state]: if
    [parse_message] returns with another [client_state] than it was called
    with, the line began with [exit] and the new value is [Exit]. *)
Theorem only_exit_stops (msg : string) (st : state) (r : Z) (st' : state) :
  parse_message msg st = Ok (r, st') →
  client_state st' ≠ client_state st →
  (∃ rest, msg = ("exit" ++ rest)%string) ∧ client_state st' = Exit.
Proof.
  intros H Hne.
  destruct (strncmp msg "exit" 4 =? 0) eqn:Ee.
  { apply Z.eqb_eq, (strncmp_prefix "exit" msg eq_refl) in Ee as [rest ->].
    simpl in H. inversion H; subst. split; [by exists rest|done]. }
  exfalso. apply Hne. clear Hne.
  destruct (strncmp msg "reconnect" 9 =? 0) eqn:Er.
  { unfold parse_message in H. rewrite Ee, Er in H. by inversion H. }
  destruct (strncmp msg "help" 4 =? 0) eqn:Eh.
  { unfold parse_message in H. rewrite Ee, Er, Eh in H. by inversion H. }
  destruct (parse_message_rules msg st r st' Ee Er Eh H) as [_ [->|(ev & _ & Hq)]];
    [done|].
  by apply queue_event_frame in Hq as [? _].
Qed.

(** ** What the producer touches *)

Lemma queue_event_slots (e : my_midi_event_t) (st st' : state) :
  queue_event e st = Ok st' →
  length (event_queue st') = length (event_queue st) ∧
  ∀ i : nat, i ≠ Z.to_nat (queued_events_start st) →
             event_queue st' !! i = event_queue st !! i.
Proof.
  unfold queue_event, array_set. intros H.
  destruct (_ =? _); [by inversion H|].
  destruct (_ && _); cbn in H; [|discriminate].
  inversion H; subst; simpl. split; [apply length_insert|].
  intros i Hi. by apply list_lookup_insert_ne.
Qed.

(** X8. [parse_message] is the producer and nothing more: it never moves
    the read index, never touches the port buffer, never resizes the queue,
    leaves every slot but the one at the write index as it was, and only
    adds to the printed text. *)
Theorem parse_message_frame (msg : string) (st : state) (r : Z) (st' : state) :
  parse_message msg st = Ok (r, st') →
  queued_events_end st' = queued_events_end st ∧
  port_buffer st' = port_buffer st ∧
  length (event_queue st') = length (event_queue st) ∧
  (∀ i : nat, i ≠ Z.to_nat (queued_events_start st) →
              event_queue st' !! i = event_queue st !! i) ∧
  ∃ out, stdout st' = stdout st ++ out.
Proof.
  intros H.
  apply parse_message_cases in H
    as [[_ ->]|[[_ ->]|[[_ ->]|[[_ ->]|[_ (ev & _ & Hq)]]]]]; simpl.
  - repeat split; try done. exists []. by rewrite app_nil_r.
  - repeat split; try done. exists []. by rewrite app_nil_r.
  - repeat split; try done. by eexists.
  - repeat split; try done. by eexists.
  - destruct (queue_event_slots ev st st' Hq) as [Hl Hs].
    apply queue_event_frame in Hq as (_ & Ho & Hp & He).
    repeat split; try done. exists []. by rewrite app_nil_r.
Qed.

Lemma parse_event_of (msg : string) (ev : my_midi_event_t) :
  parse_message msg initial_state
    = (st' ← queue_event ev initial_state; Ok (0, st')) →
  parse msg = Ok (OEvent ev).
Proof.
  rewrite parse_message_parse. intros H.
  destruct (parse msg) as [o| |]; try discriminate H.
  destruct o as [e| | | | |]; cbn [mbind result_bind act] in H.
  - apply (f_equal (λ x, match x with
                         | Ok (_, s) => event_queue s !! 0%nat
                         | _ => None
                         end)) in H.
    simpl in H. by inversion H.
  - apply (f_equal (λ x, match x with
                         | Ok (_, s) => Some (client_state s)
                         | _ => None
                         end)) in H.
    simpl in H. discriminate H.
  - apply (f_equal (λ x, match x with Ok (z, _) => Some z | _ => None end)) in H.
    simpl in H. discriminate H.
  - apply (f_equal (λ x, match x with
                         | Ok (_, s) => Some (stdout s)
                         | _ => None
                         end)) in H.
    simpl in H. discriminate H.
  - apply (f_equal (λ x, match x with
                         | Ok (_, s) => Some (stdout s)
                         | _ => None
                         end)) in H.
    simpl in H. discriminate H.
  - apply (f_equal (λ x, match x with
                         | Ok (_, s) => Some (queued_events_start s)
                         | _ => None
                         end)) in H.
    simpl in H. discriminate H.
Qed.

(** The lines [N <int> <int>] hold an event. *)
Lemma parse_note_on_line (n1 n2 : bool) (d1 d2 : list Z) (tail : string) :
  decimal_digits d1 = true → decimal_digits d2 = true →
  int_range (literal_value n1 d1) = true →
  int_range (literal_value n2 d2) = true →
  ends_number tail = true →
  parse ("N " ++ literal n1 d1 ++ " " ++ literal n2 d2 ++ tail)
    = Ok (OEvent (three_bytes 144 (Z.land (literal_value n1 d1) 127)
                    (Z.land (literal_value n2 d2) 127))).
Proof.
  intros Hd1 Hd2 Hv1 Hv2 Ht. apply parse_event_of.
  apply (parse_N_body _ _ _ (String " " (literal n2 d2 ++ tail)) tail);
    by apply scan_int_spaced_literal.
Qed.

(** X9. On a full queue a line that holds an event is dropped without a
    trace: [parse_message] returns 0 and the state it was given, nothing
    stored, nothing printed.  Whatever the line, the state returned on a
    full queue is the one given, but for [client_state] set to [Exit] by an
    [exit] line or one diagnostic printed. *)
Theorem full_queue_drops (msg : string) (st : state) :
  queue_wf st → queue_full st →
  (∀ e, parse msg = Ok (OEvent e) → parse_message msg st = Ok (0, st)) ∧
  (∀ r st', parse_message msg st = Ok (r, st') →
            st' = st ∨ st' = set_client_state Exit st ∨
            st' = printf help_text st ∨ st' = printf invalid_text st).
Proof.
  intros Hwf Hf. split.
  - intros e He. rewrite parse_message_parse, He. cbn [mbind result_bind act].
    by rewrite queue_event_full.
  - intros r st' H.
    apply parse_message_cases in H
      as [[_ ->]|[[_ ->]|[[_ ->]|[[_ ->]|[_ (ev & _ & Hq)]]]]]; auto.
    rewrite queue_event_full in Hq by done. inversion Hq; auto.
Qed.

Lemma land_ones_range (a k : Z) : 0 ≤ k → 0 ≤ Z.land a (Z.ones k) < 2 ^ k.
Proof.
  intros Hk. rewrite Z.land_ones by done. apply Z.mod_pos_bound.
  by apply Z.pow_pos_nonneg.
Qed.

(** X10. The bytes of every event [parse_message] enqueues are MIDI bytes:
    a first byte in 0..255 and, in an event of three bytes, two data bytes
    in 0..127, whatever numbers the line held. *)
Theorem parsed_event_bytes (msg : string) (st : state) (r : Z) (st' : state) :
  queue_wf st →
  parse_message msg st = Ok (r, st') →
  queued_events_start st' ≠ queued_events_start st →
  ∃ ev, event_queue st' !! Z.to_nat (queued_events_start st) = Some ev ∧
        ((∃ s d1 d2, ev = three_bytes s d1 d2 ∧
                     0 ≤ s ≤ 255 ∧ 0 ≤ d1 ≤ 127 ∧ 0 ≤ d2 ≤ 127) ∨
         (∃ b, ev = one_byte b ∧ 0 ≤ b ≤ 255)).
Proof.
  intros Hwf H Hne.
  destruct (parse_message_enqueued msg st r st' Hwf H Hne) as (ev & Hev & Hs & _).
  exists ev. split; [done|].
  destruct Hev as [(a & b & c & ->)|(a & ->)].
  - left. eexists _, _, _. split; [done|].
    pose proof (land_ones_range a 8). pose proof (land_ones_range b 7).
    pose proof (land_ones_range c 7).
    change (Z.ones 8) with 255 in *. change (Z.ones 7) with 127 in *. lia.
  - right. eexists. split; [done|].
    pose proof (land_ones_range a 8). change (Z.ones 8) with 255 in *. lia.
Qed.

(** ** Overflow *)

Lemma queue_events_take (es : list my_midi_event_t) :
  ∀ st : state,
    queue_wf st →
    ∃ st', queue_events es st = Ok st' ∧ queue_wf st' ∧
           queued st' = take 255 (queued st ++ es) ∧
           queued_events_end st' = queued_events_end st ∧
           port_buffer st' = port_buffer st.
Proof.
  induction es as [|e es IH]; intros st Hwf; simpl.
  - exists st. split; [done|]. split; [done|]. split; [|done].
    rewrite app_nil_r, take_ge; [done|].
    pose proof (length_queued st). pose proof (queued_count_range st). lia.
  - destruct (Z.eq_dec (queued_count st) 255) as [Hc|Hc].
    + assert (queue_full st) as Hf by (by apply queued_count_full).
      rewrite queue_event_full by done. simpl.
      destruct (IH st Hwf) as (st' & -> & Hwf' & Hq & He & Hp).
      exists st'. split; [done|]. split; [done|]. split; [|done]. rewrite Hq.
      pose proof (length_queued st) as Hl.
      rewrite !take_app_le by lia. done.
    + assert (¬ queue_full st) as Hf by (by rewrite <- queued_count_full).
      pose proof (queue_event_not_full e st Hwf Hf) as Hq1.
      destruct (queued_queue_event e st Hwf Hf) as (st1 & Hq1' & Hwf1 & Happ & Hp1).
      rewrite Hq1' in Hq1. rewrite Hq1'. simpl.
      destruct (IH st1 Hwf1) as (st' & -> & Hwf' & Hq & He & Hp).
      exists st'. split; [done|]. split; [done|]. split; [|split].
      * by rewrite Hq, Happ, <- app_assoc.
      * rewrite He. by inversion Hq1.
      * congruence.
Qed.

(** X11. The queue keeps the oldest: whatever number of events is handed
    to [queue_event] one after the other, the events waiting afterwards are
    the first 255 of those that waited before followed by the new ones; the
    later ones are dropped and none that waited is overwritten. *)
Theorem queue_keeps_oldest (es : list my_midi_event_t) (st : state) :
  queue_wf st →
  ∃ st', queue_events es st = Ok st' ∧ queue_wf st' ∧
         queued st' = take 255 (queued st ++ es).
Proof.
  intros Hwf.
  destruct (queue_events_take es st Hwf) as (st' & H & Hwf' & Hq & _).
  by exists st'.
Qed.

(** ** The consumer *)

Lemma process_loop_frame (fuel : nat) :
  ∀ st st' : state,
    process_loop fuel st = Ok st' →
    event_queue st' = event_queue st ∧
    queued_events_start st' = queued_events_start st ∧
    client_state st' = client_state st ∧
    stdout st' = stdout st ∧
    queue_empty st'.
Proof.
  induction fuel as [|fuel IH]; intros st st' H; simpl in H; [discriminate|].
  destruct (Z.eqb_spec (queued_events_end st) (queued_events_start st)) as [E|E];
    simpl in H.
  { by inversion H; subst. }
  destruct (array_get _ _) as [ev| |]; cbn in H; try discriminate.
  destruct (jack_midi_event_write _ _ _ _) as [st1| |] eqn:W; cbn in H;
    try discriminate.
  apply IH in H as (Hq & Hs & Hc & Ho & He). simpl in *.
  unfold jack_midi_event_write in W.
  destruct (time ev), (size ev); try discriminate.
  destruct (_ && _); [|discriminate]. by inversion W; subst.
Qed.

(** X12. [process] is the consumer and nothing more: when it returns, it
    returns 0, the read index has caught up with the write index, and the
    slots, the write index, [client_state] and the printed text are as
    they were. *)
Theorem process_frame (fuel : nat) (nframes : Z) (st : state) (r : Z)
    (st' : state) :
  process fuel nframes st = Ok (r, st') →
  r = 0 ∧
  queued_events_end st' = queued_events_start st ∧
  event_queue st' = event_queue st ∧
  queued_events_start st' = queued_events_start st ∧
  client_state st' = client_state st ∧
  stdout st' = stdout st.
Proof.
  unfold process. intros H.
  destruct (process_loop fuel _) as [s| |] eqn:E; cbn in H; try discriminate.
  inversion H; subst.
  apply process_loop_frame in E as (Hq & Hs & Hc & Ho & He).
  unfold queue_empty in He. simpl in *. repeat split; congruence.
Qed.

(** X13. One cycle delivers all that waits: on a queue of 256 slots with
    both indices inside, whose waiting events can be written, [process]
    returns within 256 tests of its loop condition, replaces what the port
    buffer held by the waiting events, oldest first, and leaves the queue
    empty. *)
Theorem process_delivers_all (fuel : nat) (nframes : Z) (st : state) :
  queue_wf st →
  forallb valid_event (queued st) = true →
  (256 ≤ fuel)%nat →
  process fuel nframes st
    = Ok (0, set_queued_events_end (queued_events_start st)
               (set_port_buffer (wire <$> queued st) st)).
Proof.
  intros Hwf Hv Hfuel. unfold process.
  pose proof (queued_count_range st) as Hc.
  rewrite (process_loop_drains (Z.to_nat (queued_count st))).
  - reflexivity.
  - apply Hwf.
  - change (queued_count st = Z.of_nat (Z.to_nat (queued_count st))). lia.
  - change (Forall (λ e, valid_event e = true) (queued st)).
    apply Forall_forall. intros e He. rewrite forallb_forall in Hv.
    apply Hv. by apply list_elem_of_In.
  - lia.
Qed.

(** ** Every reachable state *)

Lemma parser_event_valid (ev : my_midi_event_t) :
  parser_event ev → valid_event ev = true.
Proof. by intros [(a & b & c & ->)|(a & ->)]. Qed.

Lemma reachable_invariant (st : state) :
  reachable st →
  queue_wf st ∧ Forall (λ e, valid_event e = true) (queued st).
Proof.
  induction 1 as [|msg st r st' _ [Hwf Hv] H|fuel nframes st r st' _ [Hwf Hv] H].
  - split; [apply initial_state_wf|]. by apply Forall_nil.
  - split; [by apply (parse_message_wf msg st r st')|].
    apply parse_message_cases in H
      as [[_ ->]|[[_ ->]|[[_ ->]|[[_ ->]|[_ (ev & Hev & Hq)]]]]]; try done.
    destruct (Z.eq_dec ((queued_events_start st + 1) mod 256)
                       (queued_events_end st)) as [Hf|Hf].
    + rewrite queue_event_full in Hq by done. by inversion Hq; subst.
    + destruct (queued_queue_event ev st Hwf Hf) as (st1 & Hq1 & _ & Happ & _).
      rewrite Hq in Hq1. inversion Hq1; subst st1. rewrite Happ.
      apply Forall_app. split; [done|].
      apply Forall_singleton. by apply parser_event_valid.
  - unfold process in H.
    destruct (process_loop fuel _) as [s| |] eqn:E; cbn in H; try discriminate.
    inversion H; subst.
    assert (queue_wf st') as Hwf'.
    { apply (process_loop_wf fuel (jack_midi_clear_buffer st)); [apply Hwf|done]. }
    split; [done|].
    apply process_loop_frame in E as (_ & _ & _ & _ & He).
    unfold queued. rewrite (proj2 (queued_count_empty st' Hwf') He).
    by apply Forall_nil.
Qed.

Lemma process_reachable (st : state) (nframes : Z) :
  reachable st →
  process 256 nframes st
    = Ok (0, set_queued_events_end (queued_events_start st)
               (set_port_buffer (wire <$> queued st) st)).
Proof.
  intros Hr. destruct (reachable_invariant st Hr) as [Hwf Hv].
  unfold process. pose proof (queued_count_range st) as Hc.
  rewrite (process_loop_drains (Z.to_nat (queued_count st))).
  - reflexivity.
  - apply Hwf.
  - change (queued_count st = Z.of_nat (Z.to_nat (queued_count st))). lia.
  - exact Hv.
  - lia.
Qed.

(** X14. In every state reached from the initial one by calls of
    [parse_message] and [process], the queue has its 256 slots and both
    indices inside them, and a [process] call given 256 tests of its loop
    condition returns: no access is out of bounds, no byte count is beyond
    its buffer, and the waiting events are on the port, oldest first. *)
Theorem reachable_process_safe (st : state) (nframes : Z) :
  reachable st →
  queue_wf st ∧
  process 256 nframes st
    = Ok (0, set_queued_events_end (queued_events_start st)
               (set_port_buffer (wire <$> queued st) st)).
Proof.
  intros Hr. split; [by apply reachable_invariant|by apply process_reachable].
Qed.

(** ** Rounds *)

(** X15. Every event is delivered exactly once: when batches of at most 255
    writable events are enqueued with a [process] cycle after each batch,
    starting on an empty queue, the host receives over all the cycles
    exactly the events of all the batches, in the order they were enqueued,
    however often the indices wrap around. *)
Theorem rounds_deliver_once (rounds : list (list my_midi_event_t)) :
  ∀ (st : state) (fuel : nat) (nframes : Z),
    queue_wf st → queue_empty st →
    forallb round_ok rounds = true →
    (256 ≤ fuel)%nat →
    ∃ st', run_rounds fuel nframes rounds st = Ok (wire <$> concat rounds, st') ∧
           queue_wf st' ∧ queue_empty st'.
Proof.
  induction rounds as [|es rounds IH]; intros st fuel nframes Hwf Hem Hok Hfuel.
  - by exists st.
  - simpl in Hok. apply andb_prop in Hok as [Hes Hok].
    unfold round_ok in Hes. apply andb_prop in Hes as [Hlen Hv].
    apply Nat.leb_le in Hlen.
    assert (queued_count st = 0) as Hc by (by apply queued_count_empty).
    destruct (queue_events_queued es st Hwf) as (st1 & Hq & Hwf1 & Hes & _); [lia|].
    assert (queued st = []) as Hnil by (unfold queued; by rewrite Hc).
    rewrite Hnil in Hes. simpl in Hes.
    simpl. rewrite Hq. cbn [mbind result_bind]. unfold process.
    rewrite (process_loop_drains (length es)); first last.
    { lia. }
    { change (Forall (λ e, valid_event e = true) (queued st1)). rewrite Hes.
      apply Forall_forall. intros e He. rewrite forallb_forall in Hv.
      apply Hv. by apply list_elem_of_In. }
    { change (queued_count st1 = Z.of_nat (length es)).
      by rewrite <- length_queued, Hes. }
    { apply Hwf1. }
    cbn [mbind result_bind].
    change (queued (jack_midi_clear_buffer st1)) with (queued st1).
    rewrite Hes.
    set (st2 := set_queued_events_end _ _).
    destruct (IH st2 fuel nframes) as (st' & Hr & Hwf' & Hem'); try done.
    { destruct Hwf1 as (Hl & Hs & He). repeat split; simpl; done || lia. }
    rewrite Hr. cbn [mbind result_bind].
    exists st'. split; [|done]. simpl. by rewrite fmap_app.
Qed.

(** ** The control loop *)

Lemma queue_event_terminates (e : my_midi_event_t) (st : state) :
  queue_event e st ≠ OutOfFuel.
Proof.
  unfold queue_event, array_set. destruct (_ =? _); [done|].
  by destruct (_ && _).
Qed.

Ltac enqueue_terminates :=
  unfold THREEBYTES;
  match goal with
  | |- context [queue_event ?e ?s] =>
    pose proof (queue_event_terminates e s);
    by destruct (queue_event e s)
  end.

Ltac scan_terminates :=
  match goal with
  | |- context [sscanf ?m ?f ?p] =>
    pose proof (sscanf_terminates m f p);
    destruct (sscanf m f p) as [[? ?]| |]; [|done|done];
    cbn [mbind result_bind];
    match goal with
    | |- context [if ?b then _ else _] => destruct b; [enqueue_terminates|]
    end
  end.

Lemma parse_message_terminates (msg : string) (st : state) :
  parse_message msg st ≠ OutOfFuel.
Proof.
  unfold parse_message.
  destruct (_ =? 0); [done|]. destruct (_ =? 0); [done|].
  destruct (_ =? 0); [done|].
  do 6 scan_terminates. done.
Qed.

Section ControlLoopProperties.

Variable jack_connect : list jack_call → string → string → Z.
Variable jack_port_name : string.

Lemma port_connect_spec (p : string) (w : world) :
  jack_calls (port_connect jack_connect jack_port_name (Some p) w)
    = jack_calls w ++ [Connect jack_port_name p] ∧
  globals (port_connect jack_connect jack_port_name (Some p) w) = globals w ∧
  j_client (port_connect jack_connect jack_port_name (Some p) w) = j_client w ∧
  ∃ errs, stderr (port_connect jack_connect jack_port_name (Some p) w)
            = stderr w ++ errs ∧ (length errs ≤ 1)%nat.
Proof.
  unfold port_connect. destruct (negb _); simpl; repeat split.
  - eexists. split; [done|]. simpl. lia.
  - exists []. rewrite app_nil_r. split; [done|]. simpl. lia.
Qed.

Lemma connect_ports_spec (ports : list string) :
  ∀ w : world,
    jack_calls (connect_ports jack_connect jack_port_name ports w)
      = jack_calls w ++ (Connect jack_port_name <$> ports) ∧
    globals (connect_ports jack_connect jack_port_name ports w) = globals w ∧
    j_client (connect_ports jack_connect jack_port_name ports w) = j_client w ∧
    ∃ errs, stderr (connect_ports jack_connect jack_port_name ports w)
              = stderr w ++ errs ∧ (length errs ≤ length ports)%nat.
Proof.
  induction ports as [|p ports IH]; intros w.
  - simpl. rewrite app_nil_r. repeat split. exists []. by rewrite app_nil_r.
  - change (connect_ports jack_connect jack_port_name (p :: ports) w)
      with (connect_ports jack_connect jack_port_name ports
              (port_connect jack_connect jack_port_name (Some p) w)).
    destruct (IH (port_connect jack_connect jack_port_name (Some p) w))
      as (Hc & Hg & Hj & errs & He & Hl).
    destruct (port_connect_spec p w) as (Hc1 & Hg1 & Hj1 & errs1 & He1 & Hl1).
    rewrite Hc, Hg, Hj, He, Hc1, Hg1, Hj1, He1.
    rewrite <- !app_assoc. repeat split.
    exists (errs1 ++ errs). split; [done|]. rewrite length_app. simpl. lia.
Qed.

(** X16. Connecting goes through the whole list: [jack_connect] is called
    once for every port, in the order of the command line, whether the
    calls before it failed or not; a failure costs one line on standard
    error and nothing else, and the globals are not touched. *)
Theorem connect_ports_tries_all (ports : list string) (w : world) :
  jack_calls (connect_ports jack_connect jack_port_name ports w)
    = jack_calls w ++ (Connect jack_port_name <$> ports) ∧
  globals (connect_ports jack_connect jack_port_name ports w) = globals w ∧
  ∃ errs, stderr (connect_ports jack_connect jack_port_name ports w)
            = stderr w ++ errs ∧ (length errs ≤ length ports)%nat.
Proof.
  destruct (connect_ports_spec ports w) as (Hc & Hg & _ & He). by repeat split.
Qed.

Lemma main_loop_exit (ports : list string) (inputs : list poll) (w : world) :
  client_state (globals w) = Exit →
  main_loop jack_connect jack_port_name ports inputs w = Ok w.
Proof. intros H. destruct inputs; simpl; by rewrite H. Qed.

Lemma parse_exit_eqb (msg : string) (st : state) :
  (strncmp msg "exit" 4 =? 0) = true →
  parse_message msg st = Ok (0, set_client_state Exit st).
Proof. unfold parse_message. by intros ->. Qed.

(** X17. The loop reads nothing past what ends it: after a failed
    [select], an end of input, a handler run or a line whose first four
    characters are [exit], the loop has returned, and whatever the inputs
    behind it are, the outcome is the same. *)
Theorem loop_reads_nothing_past_stop (ports : list string) (pre : list poll)
    (e : poll) (post : list poll) :
  ∀ w : world,
    stops e = true →
    main_loop jack_connect jack_port_name ports (pre ++ e :: post) w
      = main_loop jack_connect jack_port_name ports (pre ++ [e]) w ∧
    main_loop jack_connect jack_port_name ports (pre ++ [e]) w ≠ OutOfFuel.
Proof.
  induction pre as [|a pre IH]; intros w Hs.
  - destruct (client_state (globals w)) eqn:Hc;
      [|by rewrite !main_loop_exit by done].
    destruct e as [| | |buf|h]; simpl in Hs; try discriminate; simpl; rewrite Hc;
      try done.
    + rewrite (parse_exit_eqb buf _ Hs). cbn [mbind result_bind].
      by rewrite !main_loop_exit by done.
    + destruct h; by rewrite !main_loop_exit by done.
  - destruct (client_state (globals w)) eqn:Hc;
      [|by rewrite !main_loop_exit by done].
    destruct a as [| | |buf|h]; simpl; rewrite Hc; try done.
    + by apply IH.
    + pose proof (parse_message_terminates buf (globals w)) as Ht.
      destruct (parse_message buf (globals w)) as [[r st]| |]; try done.
      cbn [mbind result_bind]. by apply IH.
    + by apply IH.
Qed.

Lemma parse_message_read_side (msg : string) (st : state) (r : Z) (st' : state) :
  parse_message msg st = Ok (r, st') →
  queued_events_end st' = queued_events_end st ∧
  port_buffer st' = port_buffer st.
Proof.
  intros H.
  apply parse_message_cases in H
    as [[_ ->]|[[_ ->]|[[_ ->]|[[_ ->]|[_ (ev & _ & Hq)]]]]]; try done.
  by apply queue_event_frame in Hq as (_ & _ & Hp & He).
Qed.

Lemma main_loop_keeps (ports : list string) (inputs : list poll) :
  ∀ w w' : world,
    main_loop jack_connect jack_port_name ports inputs w = Ok w' →
    queued_events_end (globals w') = queued_events_end (globals w) ∧
    port_buffer (globals w') = port_buffer (globals w) ∧
    (queue_wf (globals w) → queue_wf (globals w')) ∧
    j_client w' = j_client w ∧
    (∃ errs, stderr w' = stderr w ++ errs) ∧
    ∃ k : nat,
      (k ≤ length inputs)%nat ∧
      jack_calls w'
        = jack_calls w ++ (Connect jack_port_name <$> concat (replicate k ports)).
Proof.
  induction inputs as [|a inputs IH]; intros w w' H; simpl in H;
    destruct (client_state (globals w)) eqn:Hc; try discriminate.
  1, 3: inversion H; subst; do 4 (split; [done|]);
        split; [exists []|exists 0%nat; split; [simpl; lia|]];
        simpl; by rewrite app_nil_r.
  destruct a as [| | |buf|h].
  1, 3: inversion H; subst; do 4 (split; [done|]);
        split; [exists []|exists 0%nat; split; [simpl; lia|]];
        simpl; by rewrite app_nil_r.
  - apply IH in H as (He & Hp & Hwf & Hj & Herr & (k & Hk & Hcalls)).
    do 5 (split; [done|]). exists k. split; [simpl; lia|done].
  - destruct (parse_message buf (globals w)) as [[r st]| |] eqn:E;
      cbn [mbind result_bind] in H; try discriminate.
    apply IH in H as (He & Hp & Hwf & Hj & [errs Herr] & (k & Hk & Hcalls)).
    destruct (parse_message_read_side _ _ _ _ E) as [He1 Hp1].
    assert (queue_wf (globals w) → queue_wf st) as Hwf1
        by (intros ?; by eapply parse_message_wf).
    destruct (r =? 1).
    + destruct (connect_ports_spec ports (set_globals st w))
        as (Hc2 & Hg2 & Hj2 & errs2 & He2 & _).
      simpl in *. rewrite Hg2 in *. rewrite Hj2 in Hj.
      rewrite Hc2 in Hcalls. rewrite He2 in Herr.
      do 4 (split; [congruence || auto|]). split.
      * exists (errs2 ++ errs). by rewrite Herr, app_assoc.
      * exists (S k). split; [lia|].
        simpl. by rewrite Hcalls, fmap_app, app_assoc.
    + simpl in *. do 4 (split; [congruence || auto|]).
      split; [by eexists|]. exists k. split; [lia|done].
  - apply IH in H as (He & Hp & Hwf & Hj & [errs Herr] & (k & Hk & Hcalls)).
    destruct h; simpl in *; do 4 (split; [congruence || auto|]);
      (split; [rewrite Herr, <- app_assoc; by eexists|]);
      exists k; (split; [lia|done]).
Qed.

(** X18. The control loop stays on the producer's side: whatever it
    reads, when it returns the read index and the port buffer are as they
    were, a queue of 256 slots with both indices inside is still one, and
    the client handle is as it was.  To the log of [jack_connect] and
    [jack_client_close] calls it has added [jack_connect] calls only: from
    the output port to the whole list of ports, in order, the list gone
    through some number of times that is at most the number of inputs.  It
    does not close the client.  (The log does not hold the
    [jack_port_name] queries of [port_connect].) *)
Theorem main_loop_footprint (ports : list string) (inputs : list poll)
    (w w' : world) :
  main_loop jack_connect jack_port_name ports inputs w = Ok w' →
  queued_events_end (globals w') = queued_events_end (globals w) ∧
  port_buffer (globals w') = port_buffer (globals w) ∧
  (queue_wf (globals w) → queue_wf (globals w')) ∧
  j_client w' = j_client w ∧
  ∃ k : nat,
    (k ≤ length inputs)%nat ∧
    jack_calls w'
      = jack_calls w ++ (Connect jack_port_name <$> concat (replicate k ports)).
Proof.
  intros H. apply main_loop_keeps in H as (He & Hp & Hwf & Hj & _ & Hc).
  do 4 (split; [done|]). exact Hc.
Qed.

(** X19. However the loop ends, [main] closes the client and says so: it
    returns 0, the handle is NULL, the last line on standard error is
    [bye.], and a client that was open is closed by the last call made
    into JACK, the calls before it being those made already and
    [jack_connect] calls; a client that was not open is not closed. *)
Theorem main_run_closes_client (ports : list string) (inputs : list poll)
    (w : world) (r : Z) (w' : world) :
  main_run jack_connect jack_port_name ports inputs w = Ok (r, w') →
  r = 0 ∧ j_client w' = false ∧
  last (stderr w') = Some (with_LF "bye.") ∧
  ∃ tried,
    jack_calls w'
      = jack_calls w ++ (Connect jack_port_name <$> tried)
          ++ (if j_client w then [ClientClose] else []).
Proof.
  unfold main_run. intros H.
  destruct (main_loop _ _ _ _ _) as [w1| |] eqn:E; cbn [mbind result_bind] in H;
    try discriminate.
  apply main_loop_keeps in E as (_ & _ & _ & Hj & _ & (k & _ & Hc)).
  set (tried := concat (replicate k ports)) in Hc.
  simpl in Hj, Hc. inversion H; subst; clear H.
  unfold cleanup. simpl. rewrite Hj.
  destruct (j_client w); simpl; rewrite last_snoc.
  - do 3 (split; [done|]). exists tried. by rewrite Hc, app_assoc.
  - do 3 (split; [done|]). exists tried. by rewrite Hc, app_nil_r.
Qed.

End ControlLoopProperties.

(** ** From the line to the port *)

(** X20. A note typed is a note played: in any reachable state whose queue
    is not full, the line [N <int> <int>] followed by a cycle puts on the
    port, behind the events that waited, the three bytes 0x90, the first
    number masked with 0x7F and the second masked with 0x7F, at frame 0,
    and the queue is empty afterwards. *)
Theorem typed_note_reaches_port (n1 n2 : bool) (d1 d2 : list Z) (tail : string)
    (st : state) (nframes : Z) :
  reachable st → ¬ queue_full st →
  decimal_digits d1 = true → decimal_digits d2 = true →
  int_range (literal_value n1 d1) = true →
  int_range (literal_value n2 d2) = true →
  ends_number tail = true →
  ∃ st1 st2,
    parse_message ("N " ++ literal n1 d1 ++ " " ++ literal n2 d2 ++ tail) st
      = Ok (0, st1) ∧
    process 256 nframes st1 = Ok (0, st2) ∧
    port_buffer st2
      = (wire <$> queued st)
          ++ [(0, [Some 144; Some (Z.land (literal_value n1 d1) 127);
                   Some (Z.land (literal_value n2 d2) 127)])] ∧
    queue_empty st2.
Proof.
  intros Hr Hnf Hd1 Hd2 Hv1 Hv2 Ht.
  destruct (reachable_invariant st Hr) as [Hwf _].
  set (ev := three_bytes 144 (Z.land (literal_value n1 d1) 127)
               (Z.land (literal_value n2 d2) 127)).
  destruct (queued_queue_event ev st Hwf Hnf) as (st1 & Hq & Hwf1 & Happ & _).
  assert (parse_message ("N " ++ literal n1 d1 ++ " " ++ literal n2 d2 ++ tail) st
          = Ok (0, st1)) as Hp.
  { etransitivity.
    - apply (parse_N_body _ (literal_value n1 d1) (literal_value n2 d2)
               (String " " (literal n2 d2 ++ tail)) tail);
        by apply scan_int_spaced_literal.
    - fold ev. by rewrite Hq. }
  assert (reachable st1) as Hr1 by (by eapply reach_parse).
  exists st1. eexists. split; [done|]. split; [by apply process_reachable|].
  simpl. by rewrite Happ, fmap_app.
Qed.

(** ** The further properties at concrete inputs *)

Lemma parse_note_on_witness :
  parse_message "N 60 100" initial_state
    = (st' ← queue_event (three_bytes 144 60 100) initial_state; Ok (0, st')).
Proof.
  apply (parse_note_on false false [6; 0] [1; 0; 0] "" initial_state); reflexivity.
Defined.

Lemma parse_note_off_witness :
  parse_message (with_LF "n 60 0") initial_state
    = (st' ← queue_event (three_bytes 128 60 0) initial_state; Ok (0, st')).
Proof.
  apply (parse_note_off false false [6; 0] [0] (String LF "") initial_state);
    reflexivity.
Defined.

Lemma parse_one_byte_witness :
  parse_message "1 254" initial_state
    = (st' ← queue_event (one_byte 254) initial_state; Ok (0, st')).
Proof.
  apply (parse_one_byte false [2; 5; 4] "" initial_state); reflexivity.
Defined.

Lemma second_number_missing_witness :
  parse_message (with_LF "CC 7") initial_state
    = Ok (0, printf invalid_text initial_state) ∧
  parse_message (with_LF "N 7") initial_state
    = Ok (0, printf invalid_text initial_state) ∧
  parse_message (with_LF "n 7") initial_state
    = Ok (0, printf invalid_text initial_state).
Proof.
  apply (second_number_missing false [7] (String LF "") initial_state); reflexivity.
Defined.

Lemma parse_raw_hex_witness :
  parse_message ". 90 3C 7f" initial_state
    = (st' ← queue_event (three_bytes 144 60 127) initial_state; Ok (0, st')).
Proof.
  apply (parse_raw_hex true true false [9; 0] [3; 12] [7; 15] "" initial_state);
    reflexivity.
Defined.

Lemma returns_one_iff_reconnect_witness :
  (1 = 1 ↔ ∃ rest, with_LF "reconnect" = ("reconnect" ++ rest)%string) ∧
  (1 = 1 → initial_state = initial_state) ∧
  (1 = 0 ∨ 1 = 1).
Proof.
  apply (returns_one_iff_reconnect (with_LF "reconnect") initial_state 1
           initial_state).
  reflexivity.
Defined.

Lemma only_exit_stops_witness :
  (∃ rest, with_LF "exit" = ("exit" ++ rest)%string) ∧
  client_state (set_client_state Exit initial_state) = Exit.
Proof.
  apply (only_exit_stops (with_LF "exit") initial_state 0
           (set_client_state Exit initial_state)).
  - reflexivity.
  - simpl. intros H. discriminate H.
Defined.

Lemma parse_message_frame_witness :
  queued_events_end (one_queued (three_bytes 144 60 100))
    = queued_events_end initial_state ∧
  port_buffer (one_queued (three_bytes 144 60 100)) = port_buffer initial_state ∧
  length (event_queue (one_queued (three_bytes 144 60 100)))
    = length (event_queue initial_state) ∧
  (∀ i : nat, i ≠ Z.to_nat (queued_events_start initial_state) →
              event_queue (one_queued (three_bytes 144 60 100)) !! i
                = event_queue initial_state !! i) ∧
  ∃ out, stdout (one_queued (three_bytes 144 60 100))
           = stdout initial_state ++ out.
Proof.
  apply (parse_message_frame (with_LF "N 60 100") initial_state 0
           (one_queued (three_bytes 144 60 100))).
  reflexivity.
Defined.

Lemma full_queue_drops_witness :
  parse_message (with_LF "N 60 100") full_state = Ok (0, full_state) ∧
  (full_state = full_state ∨ full_state = set_client_state Exit full_state ∨
   full_state = printf help_text full_state ∨
   full_state = printf invalid_text full_state).
Proof.
  split.
  - refine (proj1 (full_queue_drops (with_LF "N 60 100") full_state _ _)
              (three_bytes 144 60 100) _).
    + repeat split; simpl; lia.
    + reflexivity.
    + reflexivity.
  - refine (proj2 (full_queue_drops (with_LF "N 60 100") full_state _ _)
              0 full_state _).
    + repeat split; simpl; lia.
    + reflexivity.
    + reflexivity.
Defined.

Lemma parsed_event_bytes_witness :
  ∃ ev, event_queue (one_queued (three_bytes 144 72 44)) !! Z.to_nat 0 = Some ev ∧
        ((∃ s d1 d2, ev = three_bytes s d1 d2 ∧
                     0 ≤ s ≤ 255 ∧ 0 ≤ d1 ≤ 127 ∧ 0 ≤ d2 ≤ 127) ∨
         (∃ b, ev = one_byte b ∧ 0 ≤ b ≤ 255)).
Proof.
  apply (parsed_event_bytes (with_LF "N 200 300") initial_state 0
           (one_queued (three_bytes 144 72 44))).
  - repeat split; simpl; lia.
  - reflexivity.
  - simpl. lia.
Defined.

Lemma queue_keeps_oldest_witness :
  ∃ st', queue_events [one_byte 1; one_byte 2] nearly_full_state = Ok st' ∧
         queue_wf st' ∧
         queued st' = take 255 (queued nearly_full_state ++ [one_byte 1; one_byte 2]).
Proof.
  apply (queue_keeps_oldest [one_byte 1; one_byte 2] nearly_full_state).
  repeat split; simpl; lia.
Defined.

Lemma process_frame_witness :
  0 = 0 ∧
  queued_events_end (set_port_buffer [] stale_state)
    = queued_events_start stale_state ∧
  event_queue (set_port_buffer [] stale_state) = event_queue stale_state ∧
  queued_events_start (set_port_buffer [] stale_state)
    = queued_events_start stale_state ∧
  client_state (set_port_buffer [] stale_state) = client_state stale_state ∧
  stdout (set_port_buffer [] stale_state) = stdout stale_state.
Proof.
  apply (process_frame 1 64 stale_state 0 (set_port_buffer [] stale_state)).
  reflexivity.
Defined.

Lemma process_delivers_all_witness :
  process 256 64 (one_queued (three_bytes 144 60 100))
    = Ok (0, set_queued_events_end 1
               (set_port_buffer [(0, [Some 144; Some 60; Some 100])]
                  (one_queued (three_bytes 144 60 100)))).
Proof.
  apply (process_delivers_all 256 64 (one_queued (three_bytes 144 60 100))).
  - repeat split; simpl; lia.
  - reflexivity.
  - lia.
Defined.

Lemma reachable_process_safe_witness :
  queue_wf (one_queued (three_bytes 144 60 100)) ∧
  process 256 64 (one_queued (three_bytes 144 60 100))
    = Ok (0, set_queued_events_end 1
               (set_port_buffer [(0, [Some 144; Some 60; Some 100])]
                  (one_queued (three_bytes 144 60 100)))).
Proof.
  apply (reachable_process_safe (one_queued (three_bytes 144 60 100)) 64).
  apply (reach_parse (with_LF "N 60 100") initial_state 0).
  - apply reach_initial.
  - reflexivity.
Defined.

Lemma rounds_deliver_once_witness :
  ∃ st', run_rounds 256 64
           [[three_bytes 144 60 100; one_byte 254]; []; [three_bytes 128 60 0]]
           wrapping_state
         = Ok (wire <$> [three_bytes 144 60 100; one_byte 254; three_bytes 128 60 0],
               st') ∧
         queue_wf st' ∧ queue_empty st'.
Proof.
  apply (rounds_deliver_once
           [[three_bytes 144 60 100; one_byte 254]; []; [three_bytes 128 60 0]]
           wrapping_state 256 64).
  - repeat split; simpl; lia.
  - reflexivity.
  - reflexivity.
  - lia.
Defined.

Lemma loop_reads_nothing_past_stop_witness :
  main_loop no_failure "midicmd:out" sample_ports
    ([ReadLine (with_LF "N 60 100"); SelectTimeout]
       ++ ReadLine (with_LF "exit") :: [ReadLine (with_LF "N 1 2"); ReadEnd])
    initial_world
  = main_loop no_failure "midicmd:out" sample_ports
      ([ReadLine (with_LF "N 60 100"); SelectTimeout] ++ [ReadLine (with_LF "exit")])
      initial_world ∧
  main_loop no_failure "midicmd:out" sample_ports
    ([ReadLine (with_LF "N 60 100"); SelectTimeout] ++ [ReadLine (with_LF "exit")])
    initial_world ≠ OutOfFuel.
Proof.
  apply (loop_reads_nothing_past_stop no_failure "midicmd:out" sample_ports
           [ReadLine (with_LF "N 60 100"); SelectTimeout]
           (ReadLine (with_LF "exit")) [ReadLine (with_LF "N 1 2"); ReadEnd]
           initial_world).
  reflexivity.
Defined.

Lemma main_loop_footprint_witness :
  queued_events_end
    (globals (set_globals (printf "> " initial_state)
                (connect_ports no_failure "midicmd:out" sample_ports
                   initial_world)))
    = queued_events_end (globals initial_world) ∧
  port_buffer
    (globals (set_globals (printf "> " initial_state)
                (connect_ports no_failure "midicmd:out" sample_ports
                   initial_world)))
    = port_buffer (globals initial_world) ∧
  (queue_wf (globals initial_world) →
   queue_wf
     (globals (set_globals (printf "> " initial_state)
                 (connect_ports no_failure "midicmd:out" sample_ports
                    initial_world)))) ∧
  j_client (set_globals (printf "> " initial_state)
              (connect_ports no_failure "midicmd:out" sample_ports
                 initial_world))
    = j_client initial_world ∧
  ∃ k : nat,
    (k ≤ 2)%nat ∧
    jack_calls (set_globals (printf "> " initial_state)
                  (connect_ports no_failure "midicmd:out" sample_ports
                     initial_world))
      = jack_calls initial_world
          ++ (Connect "midicmd:out" <$> concat (replicate k sample_ports)).
Proof.
  apply (main_loop_footprint no_failure "midicmd:out" sample_ports
           [ReadLine (with_LF "reconnect"); ReadEnd] initial_world).
  reflexivity.
Defined.

Lemma main_run_closes_client_witness :
  0 = 0 ∧
  j_client
    (cleanup (set_globals
                (printf (String LF "") (printf (String LF "> ") initial_state))
                initial_world)) = false ∧
  last (stderr
          (cleanup (set_globals
                      (printf (String LF "") (printf (String LF "> ") initial_state))
                      initial_world))) = Some (with_LF "bye.") ∧
  ∃ tried,
    jack_calls
      (cleanup (set_globals
                  (printf (String LF "") (printf (String LF "> ") initial_state))
                  initial_world))
      = jack_calls initial_world ++ (Connect "midicmd:out" <$> tried)
          ++ (if j_client initial_world then [ClientClose] else []).
Proof.
  apply (main_run_closes_client no_failure "midicmd:out" sample_ports
           [SelectTimeout; ReadEnd] initial_world).
  reflexivity.
Defined.

Lemma typed_note_reaches_port_witness :
  ∃ st1 st2,
    parse_message "N 60 100" initial_state = Ok (0, st1) ∧
    process 256 64 st1 = Ok (0, st2) ∧
    port_buffer st2
      = (wire <$> queued initial_state) ++ [(0, [Some 144; Some 60; Some 100])] ∧
    queue_empty st2.
Proof.
  apply (typed_note_reaches_port false false [6; 0] [1; 0; 0] "" initial_state 64);
    try reflexivity.
  - apply reach_initial.
  - intros H. vm_compute in H. discriminate H.
Defined.
